(** * PII masking: geometry, detectors and pipeline of [utils/ocr_mask.py]

    A shallow embedding of the detection-and-masking pipeline of the
    PII-Masking-Project, and the properties its specification states about
    it.  The Python integers are unbounded, so coordinates are [Z]; a Python
    tuple [(x, y, w, h)] is a Rocq tuple; the lists [rects], [used] and
    [new_rects] of [_merge_overlaps] are Rocq lists read and updated by
    index.  Token text is a [string]; the character classes used by the
    detectors ([\d], [\b], [str.isupper], [str.islower], [str.lower]) are
    those of Python on ASCII text, and the characters above 127 count as
    caseless symbols.  OpenCV and the OCR engine are parameters of the
    pipeline. *)

From Stdlib Require Import ZArith Lia Bool Ascii String.
From stdpp Require Import base tactics list strings gmap.

Local Open Scope Z_scope.

(** ** Geometry utilities *)

(** A box is the tuple [(x, y, w, h)] the detectors produce; [Corners] is the
    list [[x1, y1, x2, y2]] that [_merge_overlaps] works on. *)
Definition Box : Type := Z * Z * Z * Z.
Definition Corners : Type := Z * Z * Z * Z.

(** [_expand_bbox(left, top, width, height, pad)]. *)
Definition _expand_bbox (left top width height pad : Z) : Box :=
  (Z.max 0 (left - pad), Z.max 0 (top - pad), width + 2 * pad, height + 2 * pad).

(** [rects.append([x, y, x+w, y+h])] *)
Definition to_corners (b : Box) : Corners :=
  let '(x, y, w, h) := b in (x, y, x + w, y + h).

(** [out.append((x1, y1, x2 - x1, y2 - y1))] *)
Definition to_box (r : Corners) : Box :=
  let '(x1, y1, x2, y2) := r in (x1, y1, x2 - x1, y2 - y1).

(** The test of line 83: [not (x2 < a1 or a2 < x1 or y2 < b1 or b2 < y1)]. *)
Definition overlap (r s : Corners) : bool :=
  let '(x1, y1, x2, y2) := r in
  let '(a1, b1, a2, b2) := s in
  negb ((x2 <? a1) || (a2 <? x1) || (y2 <? b1) || (b2 <? y1)).

(** Lines 85-86: the running rectangle absorbs [rects[j]]. *)
Definition join (r s : Corners) : Corners :=
  let '(x1, y1, x2, y2) := r in
  let '(a1, b1, a2, b2) := s in
  (Z.min x1 a1, Z.min y1 b1, Z.max x2 a2, Z.max y2 b2).

(** *** One pass of the [while] loop, as the code runs it

    The state of the inner loop is the running rectangle [(x1, y1, x2, y2)],
    the flag list [used] and the flag [merged].  Both loops run over
    [range], so every index read is in range; [!!!] is the indexed read. *)
Definition inner_body (rects : list Corners)
    (st : Corners * list bool * bool) (j : nat) : Corners * list bool * bool :=
  let '(cur, used, merged) := st in
  if (used !!! j : bool) then st
  else
    let s := rects !!! j in
    if overlap cur s then (join cur s, <[j:=true]> used, true) else st.

(** [for j in range(i+1, len(rects))] *)
Definition inner_loop (rects : list Corners) (i : nat)
    (cur : Corners) (used : list bool) (merged : bool) : Corners * list bool * bool :=
  foldl (inner_body rects) (cur, used, merged)
        (seq (S i) (length rects - S i)).

(** The state of the outer loop is [used], [new_rects] and [merged]. *)
Definition outer_body (rects : list Corners)
    (st : list bool * list Corners * bool) (i : nat) : list bool * list Corners * bool :=
  let '(used, new_rects, merged) := st in
  if (used !!! i : bool) then st
  else
    let '(cur, used', merged') := inner_loop rects i (rects !!! i) used merged in
    (<[i:=true]> used', new_rects ++ [cur], merged').

(** One iteration of the [while]: returns [new_rects] and [merged]. *)
Definition one_pass (rects : list Corners) : list Corners * bool :=
  let '(_, new_rects, merged) :=
    foldl (outer_body rects) (replicate (length rects) false, [], false)
          (seq 0 (length rects)) in
  (new_rects, merged).

(** [while merged: ...; rects = new_rects].  A pass that merges shortens the
    list (lemma [one_pass_shrinks]), so the loop body runs at most
    [len(rects)] times; [fuel] counts the iterations left, and
    [while_merged_exit] shows the loop leaves through [merged = False]
    before it is used up. *)
Fixpoint while_merged (fuel : nat) (rects : list Corners) : list Corners :=
  match fuel with
  | O => rects
  | S fuel' =>
      let '(new_rects, merged) := one_pass rects in
      if merged then while_merged fuel' new_rects else new_rects
  end.

Definition _merge_overlaps (boxes : list Box) : list Box :=
  match boxes with
  | [] => []
  | _ =>
      let rects := to_corners <$> boxes in
      to_box <$> while_merged (length rects) rects
  end.

(** The pixels that [cv2.rectangle(image, (x, y), (x + w, y + h), ...,
    thickness=-1)] paints on an image of [cols] by [rows] pixels: both
    corners are included, and pixel offsets start at 0 in the top left. *)
Definition paints (cols rows : Z) (b : Box) (px py : Z) : Prop :=
  let '(x, y, w, h) := b in
  (0 ≤ px < cols ∧ 0 ≤ py < rows) ∧ (x ≤ px ≤ x + w ∧ y ≤ py ≤ y + h).

(** The region a box covers in the plane: line 165 hands the corners
    [(x, y)] and [(x + w, y + h)] to [cv2.rectangle], which fills the
    rectangle the two points span, both included, in whichever order they
    come. *)
Definition region (b : Box) (px py : Z) : Prop :=
  let '(x, y, w, h) := b in
  (Z.min x (x + w) ≤ px ≤ Z.max x (x + w))
  ∧ (Z.min y (y + h) ≤ py ≤ Z.max y (y + h)).

(** ** Text *)

Definition code (c : ascii) : nat := nat_of_ascii c.

Definition is_digit (c : ascii) : bool :=
  (48 <=? code c)%nat && (code c <=? 57)%nat.
Definition is_upper (c : ascii) : bool :=
  (65 <=? code c)%nat && (code c <=? 90)%nat.
Definition is_lower (c : ascii) : bool :=
  (97 <=? code c)%nat && (code c <=? 122)%nat.
(** The characters [\w] matches: letters, digits and the underscore. *)
Definition is_word (c : ascii) : bool :=
  is_digit c || is_upper c || is_lower c || (code c =? 95)%nat.

Definition chars (s : string) : list ascii := list_ascii_of_string s.

(** [s.isupper()] and [s.islower()]: no cased character of the other case,
    and at least one cased character. *)
Definition isupper (s : string) : bool :=
  forallb (λ c, negb (is_lower c)) (chars s) && existsb is_upper (chars s).
Definition islower (s : string) : bool :=
  forallb (λ c, negb (is_upper c)) (chars s) && existsb is_lower (chars s).

(** [s.lower()] *)
Definition lower_char (c : ascii) : ascii :=
  if is_upper c then ascii_of_nat (code c + 32) else c.
Fixpoint lower (s : string) : string :=
  match s with
  | EmptyString => EmptyString
  | String c s' => String (lower_char c) (lower s')
  end.

(** [s.lstrip(":")], [s.rstrip(":")] and [s.strip(":")]: Python's [strip]
    removes the given characters at both ends. *)
Definition is_colon (c : ascii) : bool := (code c =? 58)%nat.
Fixpoint lstrip_colons (s : string) : string :=
  match s with
  | String c s' => if is_colon c then lstrip_colons s' else s
  | EmptyString => EmptyString
  end.
Fixpoint rstrip_colons (s : string) : string :=
  match s with
  | String c s' =>
      match rstrip_colons s' with
      | EmptyString => if is_colon c then EmptyString else String c EmptyString
      | r => String c r
      end
  | EmptyString => EmptyString
  end.
Definition strip_colons (s : string) : string :=
  rstrip_colons (lstrip_colons s).

(** *** The pattern of [SSN_REGEX]

    The pattern is a sequence of items: [\b], one character of a class, and
    an optional character of a class.  [match_here] tries the items on the
    text at the current position, with the character before it ([\b] looks
    at both sides); an optional item is first taken and, when the rest then
    fails, skipped, as the backtracking matcher does.  [search] tries every
    start position, as [re.search] does. *)
Inductive item : Type :=
  | Boundary
  | One (cls : ascii → bool)
  | Optional (cls : ascii → bool).

Definition word_before (prev : option ascii) : bool :=
  match prev with Some c => is_word c | None => false end.
Definition word_here (s : string) : bool :=
  match s with String c _ => is_word c | EmptyString => false end.

Fixpoint match_here (items : list item) (prev : option ascii) (s : string) : bool :=
  match items with
  | [] => true
  | Boundary :: items' =>
      xorb (word_before prev) (word_here s) && match_here items' prev s
  | One cls :: items' =>
      match s with
      | String c s' => cls c && match_here items' (Some c) s'
      | EmptyString => false
      end
  | Optional cls :: items' =>
      match s with
      | String c s' => cls c && match_here items' (Some c) s'
      | EmptyString => false
      end
      || match_here items' prev s
  end.

Fixpoint search_from (items : list item) (prev : option ascii) (s : string) : bool :=
  match_here items prev s
  || match s with
     | String c s' => search_from items (Some c) s'
     | EmptyString => false
     end.

Definition search (items : list item) (s : string) : bool :=
  search_from items None s.

(** The class [[- ]]. *)
Definition is_sep (c : ascii) : bool := (code c =? 45)%nat || (code c =? 32)%nat.

(** [re.compile(r"\b(\d{3}[- ]?\d{2}[- ]?\d{4})\b")] *)
Definition SSN_REGEX : list item :=
  [Boundary] ++ replicate 3 (One is_digit) ++ [Optional is_sep]
  ++ replicate 2 (One is_digit) ++ [Optional is_sep]
  ++ replicate 4 (One is_digit) ++ [Boundary].

Definition NAME_LABELS : gset string :=
  {[ "name"%string; "applicant"%string; "holder"%string; "bearer"%string ]}.

(** ** The detectors *)

(** A word of [_read_words_with_boxes]; the detectors never read the
    confidence, which is left out. *)
Record Word : Type := mkWord {
  text : string;
  left : Z;
  top : Z;
  width : Z;
  height : Z;
}.

#[export] Instance Word_inhabited : Inhabited Word :=
  populate (mkWord EmptyString 0 0 0 0).

Definition _find_ssn_hits (words : list Word) : list Box :=
  foldl (λ hits w,
           if search SSN_REGEX (text w)
           then hits ++ [_expand_bbox (left w) (top w) (width w) (height w) 2]
           else hits)
        [] words.

Definition _find_ssn_boxes (words : list Word) : list Box :=
  _merge_overlaps (_find_ssn_hits words).

(** Lines 119-123 and 134-138: the padded union box of two words. *)
Definition pair_box (w nxt : Word) : Box :=
  let x := Z.min (left w) (left nxt) in
  let y := Z.min (top w) (top nxt) in
  let x2 := Z.max (left w + width w) (left nxt + width nxt) in
  let y2 := Z.max (top w + height w) (top nxt + height nxt) in
  _expand_bbox x y (x2 - x) (y2 - y) 2.

(** [t.strip(":").lower() in NAME_LABELS] *)
Definition is_label (t : string) : bool :=
  bool_decide (lower (strip_colons t) ∈ NAME_LABELS).

(** [enumerate(words)] *)
Definition enumerate {A} (l : list A) : list (nat * A) :=
  zip (seq 0 (length l)) l.

(** The body of [for k in range(1, 4)]. *)
Definition label_body (words : list Word) (i : nat) (w : Word)
    (hits : list Box) (k : nat) : list Box :=
  if (i + k <? length words)%nat
  then hits ++ [pair_box w (words !!! (i + k)%nat)]
  else hits.

(** Heuristic 1, lines 112-124: [hits] after the first loop. *)
Definition label_hits (words : list Word) (hits : list Box) : list Box :=
  foldl (λ hits '(i, w),
           if is_label (text w)
           then foldl (label_body words i w) hits (seq 1 3)
           else hits)
        hits (enumerate words).

Definition is_cap_word (s : string) : bool :=
  (1 <? String.length s)%nat
  && isupper (substring 0 1 s)
  && islower (substring 1 (String.length s - 1) s).

(** Heuristic 2, lines 130-142.  Every iteration advances [i], so the loop
    body runs at most [len(words)] times; [fuel] counts the iterations
    left. *)
Fixpoint cap_pair_hits (fuel : nat) (words : list Word) (i : nat)
    (hits : list Box) : list Box :=
  match fuel with
  | O => hits
  | S fuel' =>
      if (i <? length words - 1)%nat then
        let w1 := words !!! i in
        let w2 := words !!! (i + 1)%nat in
        if is_cap_word (text w1) && is_cap_word (text w2)
        then cap_pair_hits fuel' words (i + 2) (hits ++ [pair_box w1 w2])
        else cap_pair_hits fuel' words (i + 1) hits
      else hits
  end.

Definition _find_name_hits (words : list Word) : list Box :=
  cap_pair_hits (length words) words 0 (label_hits words []).

Definition _find_name_boxes (words : list Word) : list Box :=
  _merge_overlaps (_find_name_hits words).

(** ** The pipeline *)

Inductive exn : Type :=
  | ValueError (msg : string)
  | EngineError (msg : string).

(** The dictionary [counts]. *)
Record Counts : Type := mkCounts {
  ssn : nat;
  names : nat;
  total : nat;
}.

(** The image buffer and the file system, with the OpenCV calls that read,
    paint and write, and the OCR adapter.  [imread] yields [None] when the
    file cannot be read or decoded; the recognizer and the codec may raise. *)
Record Externals : Type := mkExternals {
  Image : Type;
  Files : Type;
  imread : Files → string → option Image;
  _read_words_with_boxes : Image → exn + list Word;
  rectangle : Image → Z * Z → Z * Z → Image;
  imwrite : Files → string → Image → exn + Files;
}.

(** [for (x, y, w, h) in ssn_boxes + name_boxes: cv2.rectangle(...)] *)
Definition draw_masks (ext : Externals) (image : Image ext) (boxes : list Box)
    : Image ext :=
  foldl (λ image '(x, y, w, h), rectangle ext image (x, y) (x + w, y + h))
        image boxes.

(** [mask_sensitive_info(input_path, output_path)] on the file system [fs]:
    the value returned or the exception raised, and the file system
    afterwards. *)
Definition mask_sensitive_info (ext : Externals) (fs : Files ext)
    (input_path output_path : string) : (exn + string * Counts) * Files ext :=
  match imread ext fs input_path with
  | None => (inl (ValueError ("Could not read image: " +:+ input_path)), fs)
  | Some image =>
      match _read_words_with_boxes ext image with
      | inl e => (inl e, fs)
      | inr words =>
          let ssn_boxes := _find_ssn_boxes words in
          let name_boxes := _find_name_boxes words in
          let image := draw_masks ext image (ssn_boxes ++ name_boxes) in
          match imwrite ext fs output_path image with
          | inl e => (inl e, fs)
          | inr fs' =>
              let counts :=
                {| ssn := length ssn_boxes;
                   names := length name_boxes;
                   total := length ssn_boxes + length name_boxes |} in
              (inr (output_path, counts), fs')
          end
      end
  end.

(** ** The passes as recursion over the live suffix

    [scan] is the inner loop and [sweep] the outer loop, written by recursion
    over the part of [rects] and [used] that lies at and after the current
    index.  They are proved equal to the indexed loops above, and the
    properties of the merge are derived from them. *)
Fixpoint scan (cur : Corners) (suf : list Corners) (usuf : list bool)
    : Corners * list bool * bool :=
  match suf, usuf with
  | s :: suf', u :: usuf' =>
      if u then
        let '(c, us, m) := scan cur suf' usuf' in (c, true :: us, m)
      else if overlap cur s then
        let '(c, us, _) := scan (join cur s) suf' usuf' in (c, true :: us, true)
      else
        let '(c, us, m) := scan cur suf' usuf' in (c, false :: us, m)
  | _, _ => (cur, usuf, false)
  end.

Fixpoint sweep (suf : list Corners) (usuf : list bool) : list Corners * bool :=
  match suf, usuf with
  | s :: suf', u :: usuf' =>
      if u then sweep suf' usuf'
      else
        let '(c, us, m) := scan s suf' usuf' in
        let '(out, m') := sweep suf' us in
        (c :: out, m || m')
  | _, _ => ([], false)
  end.

(** The rectangles whose [used] flag is still [False]. *)
Fixpoint alive (suf : list Corners) (usuf : list bool) : list Corners :=
  match suf, usuf with
  | s :: suf', u :: usuf' =>
      if u then alive suf' usuf' else s :: alive suf' usuf'
  | _, _ => []
  end.

(** No rectangle of the list overlaps a later one. *)
Fixpoint separated (l : list Corners) : Prop :=
  match l with
  | [] => True
  | r :: l' => Forall (λ s, overlap r s = false) l' ∧ separated l'
  end.

(** [reach l l']: [l'] is obtained from [l], seen as a multiset, by
    replacing overlapping pairs by their bounding union. *)
Inductive reach : list Corners → list Corners → Prop :=
  | reach_perm l l' : l ≡ₚ l' → reach l l'
  | reach_step l a b rest l' :
      l ≡ₚ a :: b :: rest → overlap a b = true →
      reach (join a b :: rest) l' → reach l l'.

(** [contains o r]: in corner form, [r] lies within [o]. *)
Definition contains (o r : Corners) : Prop :=
  let '(x1, y1, x2, y2) := o in
  let '(a1, b1, a2, b2) := r in
  x1 ≤ a1 ∧ y1 ≤ b1 ∧ a2 ≤ x2 ∧ b2 ≤ y2.

(** ** Notions used in the statements *)

(** Two boxes touch edge to edge: the right edge of [r] is the left edge of
    [s], neither has a negative width, and their vertical extents meet. *)
Definition touching (r s : Box) : Prop :=
  let '(x1, y1, x2, y2) := to_corners r in
  let '(a1, b1, a2, b2) := to_corners s in
  x1 ≤ x2 ∧ a1 ≤ a2 ∧ x2 = a1 ∧ y1 ≤ b2 ∧ b1 ≤ y2.

(** The trigger as the specification words it: only trailing colons are
    stripped. *)
Definition is_label_trailing (t : string) : bool :=
  bool_decide (lower (rstrip_colons t) ∈ NAME_LABELS).

(** What the labels contribute, by the specification's words: every label
    word gives one box with each of the up to three words that follow. *)
Fixpoint label_contrib (words : list Word) : list Box :=
  match words with
  | [] => []
  | w :: following =>
      (if is_label (text w) then pair_box w <$> take 3 following else [])
      ++ label_contrib following
  end.

(** The box of a word in corner form. *)
Definition word_corners (w : Word) : Corners :=
  (left w, top w, left w + width w, top w + height w).

(** *** A small instance of the pipeline

    A file system for the examples: the files that hold a decodable image,
    by path, each with the words the recognizer finds on it; the image
    buffer is that list of words, and painting leaves it as it is. *)
Definition demo_files : Type := list (string * list Word).

Definition demo_imread (fs : demo_files) (path : string) : option (list Word) :=
  (λ found, found.2.2) <$> list_find (λ f, f.1 = path) fs.

Definition demo_imwrite (fs : demo_files) (path : string) (image : list Word)
    : exn + demo_files :=
  inr ((path, image) :: fs).

Definition demo : Externals :=
  {| Image := list Word;
     Files := demo_files;
     imread := demo_imread;
     _read_words_with_boxes := λ image, inr image;
     rectangle := λ image _ _, image;
     imwrite := demo_imwrite |}.

Definition demo_page : list Word :=
  [mkWord "SSN:" 10 10 40 12; mkWord "123-45-6789" 60 10 90 12].

(** ** Notions used in the further properties *)

(** The four edges of a rectangle in corner form. *)
Definition edges : list (Corners → Z) :=
  [ (λ '(x1, _, _, _), x1); (λ '(_, y1, _, _), y1);
    (λ '(_, _, x2, _), x2); (λ '(_, _, _, y2), y2) ].

(** The number of characters of a class in a text, the number of
    one-character items of a pattern, and the last character of a text. *)
Fixpoint count_chars (p : ascii → bool) (s : string) : nat :=
  match s with
  | EmptyString => 0
  | String c s' => (if p c then 1 else 0) + count_chars p s'
  end.

Fixpoint ones (items : list item) : nat :=
  match items with
  | [] => 0
  | One _ :: items' => S (ones items')
  | _ :: items' => ones items'
  end.

Fixpoint last_char (s : string) : option ascii :=
  match s with
  | EmptyString => None
  | String c s' =>
      match last_char s' with Some d => Some d | None => Some c end
  end.

Definition all_digits (s : string) : bool := forallb is_digit (chars s).

Definition is_separator (s : string) : Prop :=
  s = ""%string ∨ s = "-"%string ∨ s = " "%string.

(** The box of a word, as the recognizer reports it. *)
Definition word_box (w : Word) : Box := (left w, top w, width w, height w).

(** The second loop of the name detector by recursion over the words: a pair
    of adjacent capitalized words gives a box and both words are passed;
    otherwise one word is passed. *)
Fixpoint cap_pairs (words : list Word) : list Box :=
  match words with
  | w1 :: ((w2 :: rest) as tl) =>
      if is_cap_word (text w1) && is_cap_word (text w2)
      then pair_box w1 w2 :: cap_pairs rest
      else cap_pairs tl
  | _ => []
  end.

(** What can be seen of an image: its size and the colour of its pixels. *)
Record Canvas (ext : Externals) : Type := mkCanvas {
  img_cols : Image ext → Z;
  img_rows : Image ext → Z;
  pixel : Image ext → Z → Z → Z * Z * Z;
}.
Arguments img_cols {ext}.
Arguments img_rows {ext}.
Arguments pixel {ext}.

(** What [cv2.rectangle(image, pt1, pt2, (0, 0, 0), thickness=-1)] does for
    [pt1] above and left of [pt2]: the image keeps its size, the pixels of
    the image between the two corners, both included, turn black, and the
    others keep their colour. *)
Definition fills_black (ext : Externals) (cv : Canvas ext) : Prop :=
  ∀ image x1 y1 x2 y2, x1 ≤ x2 → y1 ≤ y2 →
    img_cols cv (rectangle ext image (x1, y1) (x2, y2)) = img_cols cv image
    ∧ img_rows cv (rectangle ext image (x1, y1) (x2, y2)) = img_rows cv image
    ∧ ∀ px py, 0 ≤ px < img_cols cv image → 0 ≤ py < img_rows cv image →
        pixel cv (rectangle ext image (x1, y1) (x2, y2)) px py
        = if bool_decide (x1 ≤ px ≤ x2 ∧ y1 ≤ py ≤ y2)
          then (0, 0, 0) else pixel cv image px py.

Definition sized (b : Box) : Prop := let '(_, _, w, h) := b in 0 ≤ w ∧ 0 ≤ h.

Definition word_sized (w : Word) : Prop := 0 ≤ width w ∧ 0 ≤ height w.

(** A raster for the examples: an image is the colour of each of its 200 by
    100 pixels, every path reads as a white page with the words of
    [demo_page], and a file is written by adding it to the list. *)
Definition raster_image : Type := Z → Z → Z * Z * Z.

Definition raster : Externals :=
  {| Image := raster_image;
     Files := list (string * raster_image);
     imread := λ _ _, Some (λ _ _, (255, 255, 255));
     _read_words_with_boxes := λ _, inr demo_page;
     rectangle := λ image '(x1, y1) '(x2, y2) px py,
       if bool_decide (x1 ≤ px ≤ x2 ∧ y1 ≤ py ≤ y2) then (0, 0, 0) else image px py;
     imwrite := λ fs path image, inr ((path, image) :: fs) |}.

Definition raster_canvas : Canvas raster :=
  mkCanvas raster (λ _, 200) (λ _, 100) (λ image : raster_image, image).

Definition raster_out : raster_image :=
  draw_masks raster (λ _ _, (255, 255, 255))
    (_find_ssn_boxes demo_page ++ _find_name_boxes demo_page).

Definition ALLOWED_EXTENSIONS : gset string :=
  {[ "png"%string; "jpg"%string; "jpeg"%string ]}.

Definition is_dot (c : ascii) : bool := (code c =? 46)%nat.

(** ["." in s] *)
Fixpoint contains_dot (s : string) : bool :=
  match s with
  | EmptyString => false
  | String c s' => is_dot c || contains_dot s'
  end.

(** The text before and the text after the last dot of [s], when it has
    one. *)
Fixpoint rsplit_dot (s : string) : option (string * string) :=
  match s with
  | EmptyString => None
  | String c s' =>
      match rsplit_dot s' with
      | Some (a, b) => Some (String c a, b)
      | None => if is_dot c then Some (EmptyString, s') else None
      end
  end.

(** [s.rsplit(".", 1)] *)
Definition rsplit1 (s : string) : list string :=
  match rsplit_dot s with
  | Some (a, b) => [a; b]
  | None => [s]
  end.

(** [allowed_file(filename)]; the index 1 is read only when the name holds a
    dot, as [and] evaluates its right side only then. *)
Definition allowed_file (filename : string) : bool :=
  contains_dot filename
  && bool_decide (lower (rsplit1 filename !!! 1%nat) ∈ ALLOWED_EXTENSIONS).

(** An uploaded file: its name and its bytes.  A file of the request is
    false in a condition exactly when its name is empty. *)
Record Upload (Content : Type) : Type := mkUpload {
  filename : string;
  body : Content;
}.
Arguments filename {Content}.
Arguments body {Content}.

(** What [index] reads of [request]. *)
Record Request (Content : Type) : Type := mkRequest {
  method : string;
  url : string;
  files : gmap string (Upload Content);
}.
Arguments method {Content}.
Arguments url {Content}.
Arguments files {Content}.

(** What the route uses of Flask, Werkzeug and [os.path], the two folders of
    the configuration, and [file.save] on the file system of the pipeline. *)
Record Web (ext : Externals) : Type := mkWeb {
  Content : Type;
  secure_filename : string → string;
  path_join : string → string → string;
  basename : string → string;
  url_for_masked_file : string → string;
  save : Files ext → string → Content → Files ext;
  UPLOAD_FOLDER : string;
  MASKED_FOLDER : string;
}.
Arguments Content {ext}.
Arguments secure_filename {ext}.
Arguments path_join {ext}.
Arguments basename {ext}.
Arguments url_for_masked_file {ext}.
Arguments save {ext}.
Arguments UPLOAD_FOLDER {ext}.
Arguments MASKED_FOLDER {ext}.

(** What the route answers: a redirect with a flashed message, the page,
    bare or with the result, or the exception the pipeline raised. *)
Inductive Response : Type :=
  | Redirect (to : string) (flashed : string)
  | Page
  | ResultPage (masked_url : string) (counts : Counts) (name : string)
  | Raised (e : exn).

(** [index()], for the request [req] at the time stamp [ts] that
    [datetime.now().strftime(...)] gives. *)
Definition index (ext : Externals) (web : Web ext) (ts : string)
    (fs : Files ext) (req : Request (Content web)) : Response * Files ext :=
  if bool_decide (method req = "POST"%string) then
    match files req !! "file"%string with
    | None => (Redirect (url req) "No file part in the request.", fs)
    | Some file =>
        if bool_decide (filename file = ""%string) then
          (Redirect (url req) "No file selected.", fs)
        else if negb (allowed_file (filename file)) then
          (Redirect (url req) "Only .jpg, .jpeg, .png are allowed.", fs)
        else
          let safe_name := secure_filename web (filename file) in
          let name := ts +:+ "-" +:+ safe_name in
          let input_path := path_join web (UPLOAD_FOLDER web) name in
          let fs := save web fs input_path (body file) in
          match mask_sensitive_info ext fs input_path
                  (path_join web (MASKED_FOLDER web) name) with
          | (inl e, fs) => (Raised e, fs)
          | (inr (output_path, counts), fs) =>
              (ResultPage (url_for_masked_file web (basename web output_path))
                          counts (basename web output_path), fs)
          end
    end
  else (Page, fs).

(** A site for the examples: a stored file either holds the words of a page
    or bytes that are no image; names and paths are joined with a slash. *)
Definition shelf : Externals :=
  {| Image := list Word;
     Files := list (string * option (list Word));
     imread := λ fs path,
       list_find (λ f, f.1 = path) fs ≫= λ found, found.2.2;
     _read_words_with_boxes := λ image, inr image;
     rectangle := λ image _ _, image;
     imwrite := λ fs path image, inr ((path, Some image) :: fs) |}.

Definition shelf_web : Web shelf :=
  mkWeb shelf (option (list Word))
    (λ name, name)
    (λ dir name, dir +:+ "/" +:+ name)
    (λ path, path)
    (λ name, "/masked/" +:+ name)
    (λ (fs : list (string * option (list Word))) path content, (path, content) :: fs)
    "uploads" "masked".

Definition page_request : Request (option (list Word)) :=
  {| method := "POST"; url := "/";
     files := {[ "file"%string := mkUpload _ "scan.png" (Some demo_page) ]} |}.

Definition broken_request : Request (option (list Word)) :=
  {| method := "POST"; url := "/";
     files := {[ "file"%string := mkUpload _ "scan.png" None ]} |}.

(** ** Tactics for the corner arithmetic *)

Ltac corners :=
  repeat match goal with
         | r : Corners |- _ => destruct r as [[[? ?] ?] ?]
         | r : Box |- _ => destruct r as [[[? ?] ?] ?]
         end;
  unfold overlap, join, contains, to_corners, to_box in *; simpl in *.

Ltac geometry :=
  corners;
  repeat match goal with
         | H : negb _ = true |- _ => apply negb_true_iff in H
         | H : negb _ = false |- _ => apply negb_false_iff in H
         | H : _ || _ = false |- _ => apply orb_false_iff in H; destruct H
         | H : (_ <? _) = false |- _ => apply Z.ltb_ge in H
         | H : (_ <? _) = true |- _ => apply Z.ltb_lt in H
         | |- context [?a <? ?b] => destruct (Z.ltb_spec a b)
         | H : context [?a <? ?b] |- _ => destruct (Z.ltb_spec a b)
         end;
  simpl in *; try done;
  repeat match goal with |- (_, _) = (_, _) => f_equal end; try lia.

(** ** The indexed loops and the recursive passes agree *)

Lemma inner_loop_scan (rects pre suf : list Corners) (upre usuf : list bool)
    (cur : Corners) (m0 : bool) :
  rects = pre ++ suf →
  length upre = length pre →
  length usuf = length suf →
  foldl (inner_body rects) (cur, upre ++ usuf, m0) (seq (length pre) (length suf))
  = let '(c, us, m) := scan cur suf usuf in (c, upre ++ us, m0 || m).
Proof.
  revert pre upre usuf cur m0.
  induction suf as [|s suf IH]; intros pre upre usuf cur m0 -> Hpre Hsuf.
  - destruct usuf; [|done]. simpl. by rewrite orb_false_r.
  - destruct usuf as [|u usuf]; [done|]. simpl in Hsuf.
    cbn [length seq foldl].
    assert (Hstep : ∀ u' cur' m',
      foldl (inner_body (pre ++ s :: suf)) (cur', upre ++ u' :: usuf, m')
            (seq (S (length pre)) (length suf))
      = let '(c, us, m) := scan cur' suf usuf in (c, upre ++ u' :: us, m' || m)).
    { intros u' cur' m'.
      specialize (IH (pre ++ [s]) (upre ++ [u']) usuf cur' m').
      rewrite !length_app, <- !(assoc_L (++)) in IH. simpl in IH.
      replace (length pre + 1)%nat with (S (length pre)) in IH by lia.
      rewrite IH; [|done|lia|lia].
      destruct (scan cur' suf usuf) as [[c us] m].
      by rewrite <- (assoc_L (++)). }
    unfold inner_body at 2.
    rewrite list_lookup_total_middle by done.
    rewrite list_lookup_total_middle by done.
    destruct u; simpl.
    + rewrite Hstep. by destruct (scan cur suf usuf) as [[c us] m].
    + destruct (overlap cur s) eqn:Hov.
      * rewrite insert_app_r_alt by lia.
        replace (length pre - length upre)%nat with 0%nat by lia. simpl.
        rewrite Hstep. destruct (scan (join cur s) suf usuf) as [[c us] m].
        by rewrite orb_true_r.
      * rewrite Hstep. by destruct (scan cur suf usuf) as [[c us] m].
Qed.

Lemma scan_length cur suf usuf :
  length (scan cur suf usuf).1.2 = length usuf.
Proof.
  revert cur usuf. induction suf as [|s suf IH]; intros cur [|u usuf]; try done.
  simpl. destruct u; [|destruct (overlap cur s)].
  - specialize (IH cur usuf). destruct (scan cur suf usuf) as [[c us] m].
    simpl in *. by rewrite IH.
  - specialize (IH (join cur s) usuf).
    destruct (scan (join cur s) suf usuf) as [[c us] m]. simpl in *. by rewrite IH.
  - specialize (IH cur usuf). destruct (scan cur suf usuf) as [[c us] m].
    simpl in *. by rewrite IH.
Qed.

Lemma outer_loop_sweep (rects pre suf : list Corners) (upre usuf : list bool)
    (acc : list Corners) (m0 : bool) :
  rects = pre ++ suf →
  length upre = length pre →
  length usuf = length suf →
  (foldl (outer_body rects) (upre ++ usuf, acc, m0) (seq (length pre) (length suf))).1.2
    = acc ++ (sweep suf usuf).1
  ∧ (foldl (outer_body rects) (upre ++ usuf, acc, m0) (seq (length pre) (length suf))).2
    = m0 || (sweep suf usuf).2.
Proof.
  revert pre upre usuf acc m0.
  induction suf as [|s suf IH]; intros pre upre usuf acc m0 -> Hpre Hsuf.
  - destruct usuf; [|done]. simpl. by rewrite app_nil_r, orb_false_r.
  - destruct usuf as [|u usuf]; [done|]. simpl in Hsuf.
    cbn [length seq foldl].
    assert (Hstep : ∀ u' us' acc' m', length us' = length suf →
      (foldl (outer_body (pre ++ s :: suf)) (upre ++ u' :: us', acc', m')
             (seq (S (length pre)) (length suf))).1.2 = acc' ++ (sweep suf us').1
      ∧ (foldl (outer_body (pre ++ s :: suf)) (upre ++ u' :: us', acc', m')
               (seq (S (length pre)) (length suf))).2 = m' || (sweep suf us').2).
    { intros u' us' acc' m' Hlen.
      specialize (IH (pre ++ [s]) (upre ++ [u']) us' acc' m').
      rewrite !length_app, <- !(assoc_L (++)) in IH. simpl in IH.
      replace (length pre + 1)%nat with (S (length pre)) in IH by lia.
      apply IH; [done|lia|lia]. }
    unfold outer_body at 2 4.
    rewrite list_lookup_total_middle by done.
    destruct u; simpl.
    + apply Hstep; lia.
    + rewrite list_lookup_total_middle by done.
      unfold inner_loop.
      replace (length (pre ++ s :: suf) - S (length pre))%nat with (length suf)
        by (rewrite length_app; simpl; lia).
      pose proof (inner_loop_scan (pre ++ s :: suf) (pre ++ [s]) suf
                    (upre ++ [false]) usuf s m0) as Hin.
      rewrite !length_app, <- !(assoc_L (++)) in Hin. simpl in Hin.
      replace (length pre + 1)%nat with (S (length pre)) in Hin by lia.
      rewrite Hin; [|done|lia|lia]. clear Hin.
      pose proof (scan_length s suf usuf) as Hlen.
      destruct (scan s suf usuf) as [[c us] m]. simpl in Hlen.
      rewrite <- (assoc_L (++)). simpl.
      rewrite insert_app_r_alt by lia.
      replace (length pre - length upre)%nat with 0%nat by lia. simpl.
      destruct (Hstep true us (acc ++ [c]) (m0 || m)) as [H1 H2]; [lia|].
      simpl in H1, H2. rewrite H1, H2.
      destruct (sweep suf us) as [out m']. simpl.
      by rewrite <- (assoc_L (++)), orb_assoc.
Qed.

Lemma one_pass_sweep rects :
  one_pass rects = sweep rects (replicate (length rects) false).
Proof.
  unfold one_pass.
  pose proof (outer_loop_sweep rects [] rects [] (replicate (length rects) false)
                [] false eq_refl eq_refl) as H.
  simpl in H. rewrite length_replicate in H. destruct H as [H1 H2]; [done|].
  destruct (foldl _ _ _) as [[used new_rects] merged]. simpl in *.
  rewrite H1, H2. by destruct (sweep _ _).
Qed.

(** ** Facts about the overlap test and the bounding union *)

Lemma overlap_sym r s : overlap r s = overlap s r.
Proof. geometry. Qed.

Lemma join_comm r s : join r s = join s r.
Proof. geometry. Qed.

Lemma join_assoc r s t : join (join r s) t = join r (join s t).
Proof. geometry. Qed.

Lemma contains_refl r : contains r r.
Proof. geometry. Qed.

Lemma contains_trans o r s : contains o r → contains r s → contains o s.
Proof. geometry. Qed.

Lemma contains_join_l r s : contains (join r s) r.
Proof. geometry. Qed.

Lemma contains_join_r r s : contains (join r s) s.
Proof. geometry. Qed.

Lemma contains_join o r s : contains o r → contains o s → contains o (join r s).
Proof. geometry. Qed.

(** The overlap test is monotone: a rectangle that has grown still overlaps
    what it overlapped before. *)
Lemma overlap_mono o p r s :
  contains o r → contains p s → overlap r s = true → overlap o p = true.
Proof. geometry. Qed.

Lemma overlap_join_l r s t : overlap r t = true → overlap (join r s) t = true.
Proof.
  apply overlap_mono; [apply contains_join_l | apply contains_refl].
Qed.

Lemma to_corners_to_box r : to_corners (to_box r) = r.
Proof. geometry. Qed.

Lemma to_box_to_corners b : to_box (to_corners b) = b.
Proof. geometry. Qed.

(** ** The rewriting relation *)

Lemma reach_refl l : reach l l.
Proof. by apply reach_perm. Qed.

Lemma reach_perm_l l k l' : l ≡ₚ k → reach k l' → reach l l'.
Proof.
  intros Hlk Hr. destruct Hr as [k l' Hp | k a b rest l' Hp Hov Hr].
  - apply reach_perm. by rewrite Hlk.
  - eapply reach_step; [|done..]. by rewrite Hlk.
Qed.

Lemma reach_perm_r l l' k : reach l l' → l' ≡ₚ k → reach l k.
Proof.
  induction 1 as [l l' Hp | l a b rest l' Hp Hov Hr IH]; intros Hk.
  - apply reach_perm. by rewrite Hp.
  - eapply reach_step; [done..|]. by apply IH.
Qed.

#[export] Instance reach_proper : Proper ((≡ₚ) ==> (≡ₚ) ==> iff) reach.
Proof.
  intros l k Hlk l' k' Hlk'. split; intros H.
  - eapply reach_perm_l; [by symmetry|]. by eapply reach_perm_r.
  - eapply reach_perm_l; [done|]. eapply reach_perm_r; [done|by symmetry].
Qed.

Lemma reach_trans l k m : reach l k → reach k m → reach l m.
Proof.
  induction 1 as [l k Hp | l a b rest k Hp Hov Hr IH]; intros Hkm.
  - by eapply reach_perm_l.
  - eapply reach_step; [done..|]. by apply IH.
Qed.

Lemma reach_cons x l l' : reach l l' → reach (x :: l) (x :: l').
Proof.
  induction 1 as [l l' Hp | l a b rest l' Hp Hov Hr IH].
  - apply reach_perm. by rewrite Hp.
  - apply (reach_step _ a b (x :: rest)); [|done|].
    + rewrite Hp. by rewrite (Permutation_swap a x), (Permutation_swap b x).
    + by rewrite (Permutation_swap x (join a b)).
Qed.

Lemma reach_merge a b rest :
  overlap a b = true → reach (a :: b :: rest) (join a b :: rest).
Proof. intros. eapply reach_step; [done..|]. apply reach_refl. Qed.

Lemma reach_length l l' : reach l l' → (length l' ≤ length l)%nat.
Proof.
  induction 1 as [l l' Hp | l a b rest l' Hp Hov Hr IH].
  - by rewrite Hp.
  - rewrite Hp. simpl in *. lia.
Qed.

(** Every rectangle of the start lies within one of the result. *)
Lemma reach_contains l l' r :
  reach l l' → r ∈ l → ∃ o, o ∈ l' ∧ contains o r.
Proof.
  intros Hr. revert r.
  induction Hr as [l l' Hp | l a b rest l' Hp Hov Hr IH]; intros r Hin.
  - exists r. split; [by rewrite <- Hp | apply contains_refl].
  - rewrite Hp in Hin. apply elem_of_cons in Hin as [->|Hin].
    { destruct (IH (join a b)) as (o & Ho & Hc); [by left|].
      exists o. split; [done|]. eapply contains_trans; [done|apply contains_join_l]. }
    apply elem_of_cons in Hin as [->|Hin].
    { destruct (IH (join a b)) as (o & Ho & Hc); [by left|].
      exists o. split; [done|]. eapply contains_trans; [done|apply contains_join_r]. }
    apply IH. by right.
Qed.

(** ** Separated lists are the normal forms *)

Lemma separated_perm l k : l ≡ₚ k → separated l → separated k.
Proof.
  induction 1 as [|x l k Hp IH|x y l|l k m Hp1 IH1 Hp2 IH2]; simpl.
  - done.
  - intros [Hx Hl]. split; [by rewrite <- Hp | by apply IH].
  - intros [Hy [Hx Hl]]. apply Forall_cons in Hy as [Hyx Hy].
    repeat split; try done. constructor; [by rewrite overlap_sym|done].
  - auto.
Qed.

Lemma separated_no_step l a b rest :
  separated l → l ≡ₚ a :: b :: rest → overlap a b = false.
Proof.
  intros Hs Hp. apply (separated_perm _ _ Hp) in Hs as [Ha _].
  by apply Forall_cons in Ha as [? _].
Qed.

Lemma reach_separated l l' : separated l → reach l l' → l ≡ₚ l'.
Proof.
  intros Hs Hr. inversion Hr as [l0 l1 Hp | l0 a b rest l1 Hp Hov Hr']; subst; [done|].
  pose proof (separated_no_step _ _ _ _ Hs Hp). congruence.
Qed.

Lemma separated_lookup l i j r s :
  separated l → i ≠ j → l !! i = Some r → l !! j = Some s → overlap r s = false.
Proof.
  assert (Hlt : ∀ l i j r s, separated l → (i < j)%nat →
            l !! i = Some r → l !! j = Some s → overlap r s = false).
  { clear. induction l as [|x l IH]; intros i j r s Hs Hij Hi Hj; [done|].
    destruct Hs as [Hx Hl]. destruct j as [|j]; [lia|]. simpl in Hj.
    destruct i as [|i]; simpl in Hi.
    - inversion Hi; subst. rewrite Forall_forall in Hx.
      apply Hx. by eapply list_elem_of_lookup_2.
    - apply (IH i j); [done|lia|done..]. }
  intros Hs Hij Hi Hj. destruct (decide (i < j)%nat).
  - by apply (Hlt l i j).
  - rewrite overlap_sym. apply (Hlt l j i); [done|lia|done..].
Qed.

(** ** What one pass does *)

Lemma scan_spec cur suf usuf :
  let '(c, us, m) := scan cur suf usuf in
  reach (cur :: alive suf usuf) (c :: alive suf us)
  ∧ (length (alive suf us) ≤ length (alive suf usuf))%nat
  ∧ if m then (length (alive suf us) < length (alive suf usuf))%nat
    else c = cur ∧ us = usuf ∧ Forall (λ s, overlap cur s = false) (alive suf usuf).
Proof.
  revert cur usuf. induction suf as [|s suf IH]; intros cur usuf.
  { simpl. destruct usuf; repeat split; auto using reach_refl. }
  destruct usuf as [|u usuf].
  { simpl. repeat split; auto using reach_refl. }
  simpl. destruct u.
  - specialize (IH cur usuf). destruct (scan cur suf usuf) as [[c us] m].
    simpl. destruct IH as (Hr & Hle & Hm). repeat split; [done..|].
    destruct m; [done|]. destruct Hm as (-> & -> & HF). done.
  - destruct (overlap cur s) eqn:Hov.
    + specialize (IH (join cur s) usuf).
      destruct (scan (join cur s) suf usuf) as [[c us] m].
      simpl. destruct IH as (Hr & Hle & _). repeat split; [|lia..].
      eapply reach_trans; [by apply reach_merge|done].
    + specialize (IH cur usuf). destruct (scan cur suf usuf) as [[c us] m].
      simpl. destruct IH as (Hr & Hle & Hm). repeat split; [|lia|].
      * rewrite (Permutation_swap s cur), (Permutation_swap s c).
        by apply reach_cons.
      * destruct m; [lia|]. destruct Hm as (-> & -> & HF).
        repeat split; try done. by constructor.
Qed.

Lemma scan_separated cur suf usuf :
  Forall (λ s, overlap cur s = false) (alive suf usuf) →
  scan cur suf usuf = (cur, usuf, false).
Proof.
  revert usuf. induction suf as [|s suf IH]; intros [|u usuf] HF; try done.
  simpl in *. destruct u.
  - by rewrite IH.
  - apply Forall_cons in HF as [Hov HF]. by rewrite Hov, IH.
Qed.

Lemma sweep_spec suf usuf :
  let '(out, m) := sweep suf usuf in
  reach (alive suf usuf) out
  ∧ (length out ≤ length (alive suf usuf))%nat
  ∧ (alive suf usuf ≠ [] → out ≠ [])
  ∧ if m then (length out < length (alive suf usuf))%nat
    else out = alive suf usuf ∧ separated (alive suf usuf).
Proof.
  revert usuf. induction suf as [|s suf IH]; intros usuf.
  { simpl. destruct usuf; repeat split; auto using reach_refl. }
  destruct usuf as [|u usuf].
  { simpl. repeat split; auto using reach_refl. }
  simpl. destruct u; [apply IH|].
  pose proof (scan_spec s suf usuf) as Hscan.
  destruct (scan s suf usuf) as [[c us] m].
  specialize (IH us). destruct (sweep suf us) as [out m'].
  destruct Hscan as (Hr & Hle & Hm). destruct IH as (Hr' & Hle' & _ & Hm').
  simpl. repeat split; [|lia|done|].
  - eapply reach_trans; [done|]. by apply reach_cons.
  - destruct m; simpl; [lia|]. destruct Hm as (-> & -> & HF).
    destruct m'; [lia|]. destruct Hm' as (-> & Hsep). done.
Qed.

Lemma sweep_separated suf usuf :
  separated (alive suf usuf) → sweep suf usuf = (alive suf usuf, false).
Proof.
  revert usuf. induction suf as [|s suf IH]; intros [|u usuf] Hs; try done.
  simpl in *. destruct u; [by apply IH|].
  destruct Hs as [HF Hs]. by rewrite scan_separated, IH.
Qed.

Lemma alive_fresh rects : alive rects (replicate (length rects) false) = rects.
Proof. induction rects; simpl; by f_equal. Qed.

(** A pass rewrites [rects] into [new_rects]; when it reports no merge it
    returns [rects] itself, which is then separated; when it reports a merge
    the list has become shorter. *)
Lemma one_pass_spec rects :
  let '(new_rects, merged) := one_pass rects in
  reach rects new_rects
  ∧ (rects ≠ [] → new_rects ≠ [])
  ∧ if merged then (length new_rects < length rects)%nat
    else new_rects = rects ∧ separated rects.
Proof.
  rewrite one_pass_sweep.
  pose proof (sweep_spec rects (replicate (length rects) false)) as H.
  rewrite alive_fresh in H. destruct (sweep _ _) as [out m]. tauto.
Qed.

Lemma one_pass_shrinks rects new_rects :
  one_pass rects = (new_rects, true) → (length new_rects < length rects)%nat.
Proof.
  intros H. pose proof (one_pass_spec rects) as Hs. rewrite H in Hs. tauto.
Qed.

Lemma one_pass_separated rects :
  separated rects → one_pass rects = (rects, false).
Proof.
  intros Hs. rewrite one_pass_sweep.
  rewrite <- (alive_fresh rects) at 3. apply sweep_separated.
  by rewrite alive_fresh.
Qed.

(** ** The [while] loop *)

Lemma while_merged_reach fuel rects : reach rects (while_merged fuel rects).
Proof.
  revert rects. induction fuel as [|fuel IH]; intros rects; simpl.
  { apply reach_refl. }
  pose proof (one_pass_spec rects) as Hs.
  destruct (one_pass rects) as [new_rects merged].
  destruct Hs as (Hr & _ & _). destruct merged; [|done].
  by eapply reach_trans.
Qed.

(** With [len(rects)] iterations allowed the loop always leaves through a
    pass that reports [merged = False]. *)
Lemma while_merged_exit fuel rects :
  rects ≠ [] → (length rects ≤ fuel)%nat →
  one_pass (while_merged fuel rects) = (while_merged fuel rects, false).
Proof.
  revert rects. induction fuel as [|fuel IH]; intros rects Hne Hlen.
  { destruct rects; [done|simpl in Hlen; lia]. }
  simpl. pose proof (one_pass_spec rects) as Hs.
  destruct (one_pass rects) as [new_rects merged] eqn:Hp.
  destruct Hs as (_ & Hne' & Hm). destruct merged.
  - apply IH; [auto|lia].
  - destruct Hm as [-> _]. done.
Qed.

(** More iterations than [len(rects)] change nothing. *)
Lemma while_merged_fuel fuel fuel' rects :
  (length rects ≤ fuel)%nat → (length rects ≤ fuel')%nat →
  while_merged fuel rects = while_merged fuel' rects.
Proof.
  revert fuel' rects. induction fuel as [|fuel IH]; intros fuel' rects H1 H2.
  { destruct rects; [|simpl in H1; lia]. by destruct fuel'. }
  destruct fuel' as [|fuel'].
  { destruct rects; [|simpl in H2; lia]. done. }
  simpl. pose proof (one_pass_spec rects) as Hs.
  destruct (one_pass rects) as [new_rects merged].
  destruct merged; [|done]. destruct Hs as (_ & _ & Hlt). apply IH; lia.
Qed.

Lemma while_merged_separated rects :
  separated (while_merged (length rects) rects).
Proof.
  destruct rects as [|r rects]; [done|].
  pose proof (while_merged_exit (length (r :: rects)) (r :: rects)) as He.
  pose proof (one_pass_spec (while_merged (length (r :: rects)) (r :: rects))) as Hs.
  rewrite He in Hs; [tauto|done|done].
Qed.

Lemma while_merged_fixed rects :
  separated rects → while_merged (length rects) rects = rects.
Proof.
  intros Hs. destruct rects as [|r rects]; [done|].
  cbn [length while_merged]. by rewrite one_pass_separated.
Qed.

(** ** The result does not depend on the order of the merges *)

Lemma perm_cons_cases {A} (x y : A) (l l' : list A) :
  x :: l ≡ₚ y :: l' →
  (x = y ∧ l ≡ₚ l') ∨ ∃ k, l ≡ₚ y :: k ∧ l' ≡ₚ x :: k.
Proof.
  intros Hp. apply Permutation_cons_inv_l in Hp as (k1 & k2 & Heq & Hl).
  destruct k1 as [|z k1]; simpl in Heq; inversion Heq; subst.
  - by left.
  - right. exists (k1 ++ k2). split; [done|]. by rewrite Permutation_middle.
Qed.

(** Two merges that share a rectangle are joined by merging the third
    rectangle in. *)
Lemma merge_meet a b c k :
  overlap a b = true → overlap a c = true →
  ∃ m, reach (join a b :: c :: k) m ∧ reach (join a c :: b :: k) m.
Proof.
  intros Hab Hac. exists (join (join a b) c :: k). split.
  - apply reach_merge. by apply overlap_join_l.
  - replace (join (join a b) c) with (join (join a c) b)
      by (rewrite !join_assoc; f_equal; apply join_comm).
    apply reach_merge. by apply overlap_join_l.
Qed.

(** Any two merges possible in one list can be brought together again. *)
Lemma merge_diamond a b rest c d rest' :
  a :: b :: rest ≡ₚ c :: d :: rest' →
  overlap a b = true → overlap c d = true →
  ∃ m, reach (join a b :: rest) m ∧ reach (join c d :: rest') m.
Proof.
  intros Hp Hab Hcd.
  assert (Hba : overlap b a = true) by (by rewrite overlap_sym).
  assert (Hdc : overlap d c = true) by (by rewrite overlap_sym).
  apply perm_cons_cases in Hp as [[E Hp] | (k & Hp1 & Hp2)].
  - (* the first rectangles coincide *)
    subst c. apply perm_cons_cases in Hp as [[E Hp] | (k & Hp1 & Hp2)].
    + subst d. exists (join a b :: rest). split; [apply reach_refl|].
      apply reach_perm. by rewrite Hp.
    + destruct (merge_meet a b d k Hab Hcd) as (m & H1 & H2).
      exists m. split; [by rewrite Hp1 | by rewrite Hp2].
  - apply perm_cons_cases in Hp1 as [[E1 Hp1] | (k1 & Hp1 & Hk1)];
      apply perm_cons_cases in Hp2 as [[E2 Hp2] | (k2 & Hp2 & Hk2)].
    + (* the same pair, in the other order *)
      subst c d. exists (join a b :: rest). split; [apply reach_refl|].
      apply reach_perm. by rewrite (join_comm b a), Hp2, Hp1.
    + (* [b] is shared: the pairs are [(a, b)] and [(b, d)] *)
      subst c. destruct (merge_meet b a d k2 Hba Hcd) as (m & H1 & H2).
      exists m. split.
      * by rewrite (join_comm a b), Hp1, Hk2.
      * by rewrite Hp2.
    + (* [a] is shared: the pairs are [(a, b)] and [(c, a)] *)
      subst d. destruct (merge_meet a b c k1 Hab Hdc) as (m & H1 & H2).
      exists m. split.
      * by rewrite Hp1.
      * by rewrite (join_comm c a), Hp2, Hk1.
    + rewrite Hk1 in Hk2.
      apply perm_cons_cases in Hk2 as [[E Hk] | (k3 & Hk3 & Hk4)].
      * (* [b] is shared: the pairs are [(a, b)] and [(c, b)] *)
        subst d. destruct (merge_meet b a c k1 Hba Hdc) as (m & H1 & H2).
        exists m. split.
        -- by rewrite (join_comm a b), Hp1.
        -- by rewrite (join_comm c b), Hp2, <- Hk.
      * (* the pairs are disjoint *)
        exists (join a b :: join c d :: k3). split.
        -- rewrite Hp1, Hk3. apply reach_cons, reach_merge. done.
        -- rewrite Hp2, Hk4.
           rewrite (Permutation_swap (join c d) (join a b)).
           apply reach_cons, reach_merge. done.
Qed.

(** Every list has a separated list within reach: the one the loop computes. *)
Lemma reach_normal_form l : ∃ nf, reach l nf ∧ separated nf.
Proof.
  exists (while_merged (length l) l).
  split; [apply while_merged_reach | apply while_merged_separated].
Qed.

(** Separated lists within reach of the same list are permutations of each
    other. *)
Lemma reach_unique l n1 n2 :
  reach l n1 → separated n1 → reach l n2 → separated n2 → n1 ≡ₚ n2.
Proof.
  remember (length l) as n eqn:Hn.
  revert l Hn n1 n2. induction (lt_wf n) as [n _ IH].
  intros l -> n1 n2 H1 S1 H2 S2.
  inversion H1 as [? ? P1 | ? a b rest ? P1 Hab R1]; subst;
    inversion H2 as [? ? P2 | ? c d rest' ? P2 Hcd R2]; subst.
  - by rewrite <- P1, <- P2.
  - symmetry in P1. pose proof (separated_perm _ _ P1 S1) as Sl.
    pose proof (separated_no_step _ _ _ _ Sl P2). congruence.
  - symmetry in P2. pose proof (separated_perm _ _ P2 S2) as Sl.
    pose proof (separated_no_step _ _ _ _ Sl P1). congruence.
  - assert (Hp : a :: b :: rest ≡ₚ c :: d :: rest') by (by rewrite <- P1, <- P2).
    destruct (merge_diamond _ _ _ _ _ _ Hp Hab Hcd) as (m & M1 & M2).
    destruct (reach_normal_form m) as (nf & Hnf & Snf).
    assert (L1 : (length (join a b :: rest) < length l)%nat)
      by (rewrite P1; simpl; lia).
    assert (L2 : (length (join c d :: rest') < length l)%nat)
      by (rewrite P2; simpl; lia).
    transitivity nf.
    + eapply (IH _ L1 _ eq_refl); [done..| |done]. by eapply reach_trans.
    + symmetry. eapply (IH _ L2 _ eq_refl); [done..| |done]. by eapply reach_trans.
Qed.

Lemma while_merged_perm rects rects' :
  rects ≡ₚ rects' →
  while_merged (length rects) rects ≡ₚ while_merged (length rects') rects'.
Proof.
  intros Hp. apply (reach_unique rects).
  - apply while_merged_reach.
  - apply while_merged_separated.
  - rewrite Hp. apply while_merged_reach.
  - apply while_merged_separated.
Qed.

(** The guard [if not boxes: return []] agrees with the general path. *)
Lemma merge_overlaps_unfold boxes :
  _merge_overlaps boxes
  = to_box <$> while_merged (length boxes) (to_corners <$> boxes).
Proof. destruct boxes; [done|]. unfold _merge_overlaps. by rewrite length_fmap. Qed.

Example merge_touching :
  _merge_overlaps [(0, 0, 10, 10); (10, 0, 10, 10)] = [(0, 0, 20, 10)].
Proof. reflexivity. Qed.

Example merge_chain :
  _merge_overlaps [(0, 0, 10, 10); (30, 0, 10, 10); (5, 5, 30, 2)] = [(0, 0, 40, 10)].
Proof. reflexivity. Qed.

Example merge_apart :
  _merge_overlaps [(0, 0, 10, 10); (30, 0, 10, 10); (11, 5, 18, 2)]
  = [(0, 0, 10, 10); (30, 0, 10, 10); (11, 5, 18, 2)].
Proof. reflexivity. Qed.

(** ** Properties of [_merge_overlaps] *)

Lemma fmap_corners_box (l : list Corners) : to_corners <$> (to_box <$> l) = l.
Proof. induction l as [|r l IH]; [done|]. cbn. by rewrite to_corners_to_box, IH. Qed.

Lemma fmap_box_corners (l : list Box) : to_box <$> (to_corners <$> l) = l.
Proof. induction l as [|b l IH]; [done|]. cbn. by rewrite to_box_to_corners, IH. Qed.

Lemma merge_overlaps_corners boxes :
  to_corners <$> _merge_overlaps boxes
  = while_merged (length boxes) (to_corners <$> boxes).
Proof. by rewrite merge_overlaps_unfold, fmap_corners_box. Qed.

Lemma merge_overlaps_separated boxes :
  separated (to_corners <$> _merge_overlaps boxes).
Proof.
  rewrite merge_overlaps_corners.
  pose proof (while_merged_separated (to_corners <$> boxes)) as H.
  by rewrite length_fmap in H.
Qed.

Lemma merged_boxes_apart (boxes : list Box) (i j : nat) (r s : Box) :
  i ≠ j →
  _merge_overlaps boxes !! i = Some r →
  _merge_overlaps boxes !! j = Some s →
  overlap (to_corners r) (to_corners s) = false.
Proof.
  intros Hij Hi Hj.
  apply (separated_lookup (to_corners <$> _merge_overlaps boxes) i j).
  - apply merge_overlaps_separated.
  - done.
  - by rewrite list_lookup_fmap, Hi.
  - by rewrite list_lookup_fmap, Hj.
Qed.

(** C3. Any two rectangles at distinct positions of the output of
    [_merge_overlaps] fail the overlap test of the merge on their corner
    forms [(x1, y1, x2, y2)]. *)
Theorem merge_overlaps_disjoint (boxes : list Box) (i j : nat) (r s : Box) :
  i ≠ j →
  _merge_overlaps boxes !! i = Some r →
  _merge_overlaps boxes !! j = Some s →
  overlap (to_corners r) (to_corners s) = false.
Proof. apply merged_boxes_apart. Qed.

Lemma merge_overlaps_disjoint_witness :
  overlap (to_corners (0, 0, 10, 10)) (to_corners (30, 0, 10, 10)) = false.
Proof.
  apply (merge_overlaps_disjoint
           [(0, 0, 10, 10); (30, 0, 10, 10); (11, 5, 18, 2)] 0 1);
    [lia | reflexivity | reflexivity].
Defined.

(** C4. Merging a merged list changes nothing: the two outputs are the same
    list, hence the same set of rectangles. *)
Theorem merge_overlaps_idempotent (boxes : list Box) :
  _merge_overlaps (_merge_overlaps boxes) = _merge_overlaps boxes
  ∧ ∀ b, b ∈ _merge_overlaps (_merge_overlaps boxes) ↔ b ∈ _merge_overlaps boxes.
Proof.
  assert (H : _merge_overlaps (_merge_overlaps boxes) = _merge_overlaps boxes).
  { rewrite (merge_overlaps_unfold (_merge_overlaps boxes)).
    rewrite <- (length_fmap to_corners (_merge_overlaps boxes)).
    rewrite while_merged_fixed by apply merge_overlaps_separated.
    apply fmap_box_corners. }
  split; [done|]. intros b. by rewrite H.
Qed.

(** C5. The merged output of a permuted input is a permutation of the merged
    output: the two outputs hold the same rectangles. *)
Theorem merge_overlaps_order_independent (boxes boxes' : list Box) :
  boxes ≡ₚ boxes' →
  _merge_overlaps boxes ≡ₚ _merge_overlaps boxes'
  ∧ ∀ b, b ∈ _merge_overlaps boxes ↔ b ∈ _merge_overlaps boxes'.
Proof.
  intros Hp.
  assert (H : _merge_overlaps boxes ≡ₚ _merge_overlaps boxes').
  { rewrite !merge_overlaps_unfold. apply fmap_Permutation.
    rewrite <- (length_fmap to_corners boxes), <- (length_fmap to_corners boxes').
    apply while_merged_perm. by apply fmap_Permutation. }
  split; [done|]. intros b. by rewrite H.
Qed.

Lemma merge_overlaps_order_independent_witness :
  _merge_overlaps [(0, 0, 10, 10); (30, 0, 10, 10); (5, 5, 30, 2)]
    ≡ₚ _merge_overlaps [(5, 5, 30, 2); (30, 0, 10, 10); (0, 0, 10, 10)]
  ∧ ∀ b, b ∈ _merge_overlaps [(0, 0, 10, 10); (30, 0, 10, 10); (5, 5, 30, 2)]
         ↔ b ∈ _merge_overlaps [(5, 5, 30, 2); (30, 0, 10, 10); (0, 0, 10, 10)].
Proof.
  apply (merge_overlaps_order_independent
           [(0, 0, 10, 10); (30, 0, 10, 10); (5, 5, 30, 2)]
           [(5, 5, 30, 2); (30, 0, 10, 10); (0, 0, 10, 10)]).
  apply (Permutation_trans (l' := [(30, 0, 10, 10); (0, 0, 10, 10); (5, 5, 30, 2)])).
  - apply perm_swap.
  - apply (Permutation_trans (l' := [(30, 0, 10, 10); (5, 5, 30, 2); (0, 0, 10, 10)])).
    + apply perm_skip, perm_swap.
    + apply perm_swap.
Defined.

Lemma contains_paints cols rows o r px py :
  contains (to_corners o) (to_corners r) →
  paints cols rows r px py → paints cols rows o px py.
Proof. unfold paints. corners. lia. Qed.

Lemma merged_box_around (boxes : list Box) (r : Box) :
  r ∈ boxes →
  ∃ o, o ∈ _merge_overlaps boxes ∧ contains (to_corners o) (to_corners r).
Proof.
  intros Hin.
  destruct (reach_contains (to_corners <$> boxes)
              (while_merged (length boxes) (to_corners <$> boxes)) (to_corners r))
    as (c & Hc & Hcont).
  { rewrite <- (length_fmap to_corners boxes). apply while_merged_reach. }
  { by apply list_elem_of_fmap_2. }
  exists (to_box c). rewrite to_corners_to_box. split; [|done].
  rewrite merge_overlaps_unfold. by apply list_elem_of_fmap_2.
Qed.

(** C10. Every input rectangle lies within some rectangle of the output of
    [_merge_overlaps]; every pixel an input rectangle would mask is masked
    by that output rectangle. *)
Theorem merge_overlaps_covers (boxes : list Box) (r : Box) :
  r ∈ boxes →
  ∃ o, o ∈ _merge_overlaps boxes
       ∧ contains (to_corners o) (to_corners r)
       ∧ ∀ cols rows px py, paints cols rows r px py → paints cols rows o px py.
Proof.
  intros Hin. destruct (merged_box_around boxes r Hin) as (o & Ho & Hc).
  exists o. repeat split; [done..|].
  intros cols rows px py. by apply contains_paints.
Qed.

Lemma merge_overlaps_covers_witness :
  ∃ o, o ∈ _merge_overlaps [(0, 0, 10, 10); (30, 0, 10, 10); (5, 5, 30, 2)]
       ∧ contains (to_corners o) (to_corners (30, 0, 10, 10))
       ∧ ∀ cols rows px py,
           paints cols rows (30, 0, 10, 10) px py → paints cols rows o px py.
Proof.
  apply (merge_overlaps_covers [(0, 0, 10, 10); (30, 0, 10, 10); (5, 5, 30, 2)]).
  apply list_elem_of_In. simpl. tauto.
Defined.

Lemma touching_overlap r s :
  touching r s → overlap (to_corners r) (to_corners s) = true.
Proof. unfold touching. geometry. Qed.

Lemma merge_pair (r s : Corners) :
  overlap r s = true → while_merged 2 [r; s] = [join r s].
Proof.
  intros Hov.
  assert (H1 : one_pass [r; s] = ([join r s], true)).
  { rewrite one_pass_sweep. simpl. by rewrite Hov. }
  assert (H2 : one_pass [join r s] = ([join r s], false)).
  { by rewrite one_pass_sweep. }
  cbn [while_merged]. by rewrite H1, H2.
Qed.

Lemma merged_together boxes r s :
  r ∈ boxes → s ∈ boxes →
  overlap (to_corners r) (to_corners s) = true →
  ∃ o, o ∈ _merge_overlaps boxes
       ∧ contains (to_corners o) (to_corners r)
       ∧ contains (to_corners o) (to_corners s).
Proof.
  intros Hr Hs Hov.
  destruct (merged_box_around boxes r Hr) as (o1 & Ho1 & Hc1).
  destruct (merged_box_around boxes s Hs) as (o2 & Ho2 & Hc2).
  assert (Hov' : overlap (to_corners o1) (to_corners o2) = true)
    by (by eapply overlap_mono).
  apply list_elem_of_lookup in Ho1 as [i Hi], Ho2 as [j Hj].
  destruct (decide (i = j)) as [->|Hij].
  - exists o1. assert (o1 = o2) by congruence. subst o2.
    repeat split; [by eapply list_elem_of_lookup_2|done..].
  - pose proof (merged_boxes_apart boxes i j o1 o2 Hij Hi Hj). congruence.
Qed.

(** C7, as the code has it.  Boxes that touch edge to edge are merged: on
    the pair alone the output is their bounding union, and in any list that
    holds both, one output box contains both. *)
Theorem touching_boxes_are_merged (r s : Box) :
  touching r s →
  _merge_overlaps [r; s] = [to_box (join (to_corners r) (to_corners s))]
  ∧ ∀ boxes, r ∈ boxes → s ∈ boxes →
      ∃ o, o ∈ _merge_overlaps boxes
           ∧ contains (to_corners o) (to_corners r)
           ∧ contains (to_corners o) (to_corners s).
Proof.
  intros Ht. apply touching_overlap in Ht. split.
  - rewrite merge_overlaps_unfold. cbn [length fmap list_fmap].
    by rewrite merge_pair.
  - intros boxes Hr Hs. by apply merged_together.
Qed.

Lemma touching_boxes_are_merged_witness :
  _merge_overlaps [(0, 0, 10, 10); (10, 0, 10, 10)]
  = [to_box (join (to_corners (0, 0, 10, 10)) (to_corners (10, 0, 10, 10)))]
  ∧ ∀ boxes, (0, 0, 10, 10) ∈ boxes → (10, 0, 10, 10) ∈ boxes →
      ∃ o, o ∈ _merge_overlaps boxes
           ∧ contains (to_corners o) (to_corners (0, 0, 10, 10))
           ∧ contains (to_corners o) (to_corners (10, 0, 10, 10)).
Proof.
  apply (touching_boxes_are_merged (0, 0, 10, 10) (10, 0, 10, 10)).
  unfold touching. simpl. lia.
Defined.

(** C7, as the specification words it, fails: the boxes [(0, 0, 10, 10)] and
    [(10, 0, 10, 10)] touch edge to edge, and neither is left in the
    output. *)
Lemma touching_boxes_not_kept :
  touching (0, 0, 10, 10) (10, 0, 10, 10)
  ∧ _merge_overlaps [(0, 0, 10, 10); (10, 0, 10, 10)] = [(0, 0, 20, 10)]
  ∧ ¬ ((0, 0, 10, 10) ∈ _merge_overlaps [(0, 0, 10, 10); (10, 0, 10, 10)]
       ∧ (10, 0, 10, 10) ∈ _merge_overlaps [(0, 0, 10, 10); (10, 0, 10, 10)]).
Proof.
  split; [unfold touching; simpl; lia|]. split; [reflexivity|].
  intros [H _]. change (_merge_overlaps _) with [(0, 0, 20, 10)] in H.
  apply list_elem_of_singleton in H. discriminate H.
Qed.

(** ** Padding *)

Lemma expand_bbox_contains x y w h p :
  0 ≤ x → 0 ≤ y → 0 ≤ p →
  contains (to_corners (_expand_bbox x y w h p)) (to_corners (x, y, w, h)).
Proof. unfold _expand_bbox, contains, to_corners. lia. Qed.

(** Left of the image the clamp moves the origin to 0: the padded box starts
    right of a box with a negative origin, and only the pixels of the image
    are kept. *)
Example expand_bbox_clamped :
  _expand_bbox (-5) 0 10 10 0 = (0, 0, 10, 10)
  ∧ ¬ contains (to_corners (_expand_bbox (-5) 0 10 10 0)) (to_corners (-5, 0, 10, 10)).
Proof. split; [reflexivity|]. unfold contains. simpl. lia. Qed.

Lemma expand_bbox_grows x y w h p1 p2 :
  0 ≤ p1 → p1 < p2 →
  contains (to_corners (_expand_bbox x y w h p2))
           (to_corners (_expand_bbox x y w h p1)).
Proof. unfold _expand_bbox, contains, to_corners. lia. Qed.

(** C6, as the code has it.  For a box with a non-negative origin and
    non-negative width and height, the region of [_expand_bbox] with a pad
    [p >= 0] contains the region of the box; and for a box with non-negative
    width and height, whatever its origin, the region of a larger pad
    contains the region of a smaller one, also when the origin is clamped
    to 0. *)
Theorem expand_bbox_monotone (x y w h : Z) :
  (∀ p px py, 0 ≤ x → 0 ≤ y → 0 ≤ w → 0 ≤ h → 0 ≤ p →
     region (x, y, w, h) px py →
     region (_expand_bbox x y w h p) px py)
  ∧ (∀ p1 p2 px py, 0 ≤ w → 0 ≤ h → 0 ≤ p1 → p1 < p2 →
       region (_expand_bbox x y w h p1) px py →
       region (_expand_bbox x y w h p2) px py).
Proof. unfold region, _expand_bbox. split; intros; lia. Qed.

Lemma expand_bbox_monotone_witness :
  (region (3, 1, 10, 10) 13 11 → region (_expand_bbox 3 1 10 10 4) 13 11)
  ∧ (region (_expand_bbox 3 1 10 10 2) 1 0 →
     region (_expand_bbox 3 1 10 10 4) 1 0).
Proof.
  destruct (expand_bbox_monotone 3 1 10 10) as [H1 H2]. split.
  - apply H1; lia.
  - apply H2; lia.
Defined.

(** C6, as the specification words it, fails for boxes outside that range.
    The box [(-5, 0, 10, 10)] covers the point [(-5, 0)], which its padded
    box, clamped to the origin 0, does not.  The box [(10, 0, -5, 5)] of
    negative width covers the point [(5, 0)], which its padded box with pad
    1 does not; and its padded box with pad 1 covers the point [(6, 0)],
    which the one with pad 2 does not. *)
Lemma expand_bbox_loses_region :
  (region (-5, 0, 10, 10) (-5) 0
   ∧ ¬ region (_expand_bbox (-5) 0 10 10 0) (-5) 0)
  ∧ (region (10, 0, -5, 5) 5 0
     ∧ ¬ region (_expand_bbox 10 0 (-5) 5 1) 5 0)
  ∧ (region (_expand_bbox 10 0 (-5) 5 1) 6 0
     ∧ ¬ region (_expand_bbox 10 0 (-5) 5 2) 6 0).
Proof. unfold region, _expand_bbox. simpl. lia. Qed.

(** ** The identifier pattern *)

(** C2. The texts ["123-45-6789"], ["123456789"] and ["123 45 6789"] contain
    a match of [SSN_REGEX], and ["12-345-6789"] contains none. *)
Theorem ssn_regex_examples :
  search SSN_REGEX "123-45-6789" = true
  ∧ search SSN_REGEX "123456789" = true
  ∧ search SSN_REGEX "123 45 6789" = true
  ∧ search SSN_REGEX "12-345-6789" = false.
Proof. repeat split; vm_compute; reflexivity. Qed.

Example ssn_regex_embedded :
  search SSN_REGEX "SSN:123-45-6789" = true
  ∧ search SSN_REGEX "1234567890" = false.
Proof. split; vm_compute; reflexivity. Qed.

Example ssn_word_is_hit :
  _find_ssn_boxes [mkWord "123-45-6789" 10 10 80 12] = [(8, 8, 84, 16)].
Proof. vm_compute. reflexivity. Qed.

(** ** The label heuristic of the name detector *)

Lemma pair_box_union w nxt :
  pair_box w nxt
  = let '(x, y, wd, hg) := to_box (join (word_corners w) (word_corners nxt)) in
    _expand_bbox x y wd hg 2.
Proof. reflexivity. Qed.

Lemma label_inner pre w following hits :
  foldl (label_body (pre ++ w :: following) (length pre) w) hits (seq 1 3)
  = hits ++ (pair_box w <$> take 3 following).
Proof.
  assert (Hlook : ∀ k x l1 l2, length l1 = k →
            (pre ++ w :: l1 ++ x :: l2) !!! (length pre + S k)%nat = x).
  { intros k x l1 l2 <-.
    replace (pre ++ w :: l1 ++ x :: l2) with (((pre ++ [w]) ++ l1) ++ x :: l2)
      by (by rewrite <- !(assoc_L (++))).
    apply list_lookup_total_middle. rewrite !length_app. simpl. lia. }
  cbn [seq foldl]. unfold label_body. rewrite length_app. cbn [length].
  destruct following as [|a [|b [|c rest]]]; cbn [length take fmap list_fmap];
    repeat match goal with
           | |- context [(?n <? ?m)%nat] => destruct (Nat.ltb_spec n m); try lia
           end.
  - by rewrite app_nil_r.
  - pose proof (Hlook 0%nat a [] [] eq_refl) as E. simpl in E. by rewrite E.
  - pose proof (Hlook 0%nat a [] [b] eq_refl) as E1.
    pose proof (Hlook 1%nat b [a] [] eq_refl) as E2. simpl in E1, E2.
    by rewrite E1, E2, <- (assoc_L (++)).
  - pose proof (Hlook 0%nat a [] (b :: c :: rest) eq_refl) as E1.
    pose proof (Hlook 1%nat b [a] (c :: rest) eq_refl) as E2.
    pose proof (Hlook 2%nat c [a; b] rest eq_refl) as E3. simpl in E1, E2, E3.
    rewrite E1, E2, E3, <- !(assoc_L (++)). by rewrite take_0.
Qed.

Lemma label_hits_from words pre suf hits :
  words = pre ++ suf →
  foldl (λ hits '(i, w),
           if is_label (text w)
           then foldl (label_body words i w) hits (seq 1 3)
           else hits)
        hits (zip (seq (length pre) (length suf)) suf)
  = hits ++ label_contrib suf.
Proof.
  revert pre hits. induction suf as [|w suf IH]; intros pre hits ->.
  { simpl. by rewrite app_nil_r. }
  cbn [length seq zip zip_with foldl label_contrib].
  specialize (IH (pre ++ [w])). rewrite length_app in IH. simpl in IH.
  replace (length pre + 1)%nat with (S (length pre)) in IH by lia.
  rewrite IH by (by rewrite <- (assoc_L (++))).
  destruct (is_label (text w)).
  - pose proof (label_inner pre w suf hits) as E. cbn [seq foldl] in E.
    by rewrite E, <- (assoc_L (++)).
  - done.
Qed.

Lemma label_hits_contrib words hits :
  label_hits words hits = hits ++ label_contrib words.
Proof. by apply (label_hits_from words [] words hits). Qed.

Lemma cap_pair_hits_extends fuel words i hits :
  ∃ pairs, cap_pair_hits fuel words i hits = hits ++ pairs.
Proof.
  revert i hits. induction fuel as [|fuel IH]; intros i hits; simpl.
  { exists []. by rewrite app_nil_r. }
  destruct (i <? length words - 1)%nat; [|exists []; by rewrite app_nil_r].
  destruct (_ && _).
  - destruct (IH (i + 2)%nat (hits ++ [pair_box (words !!! i) (words !!! (i + 1)%nat)]))
      as [pairs ->].
    eexists. by rewrite <- (assoc_L (++)).
  - apply IH.
Qed.

(** The second loop leaves through its condition: iterations beyond the
    words that remain change nothing. *)
Lemma cap_pair_hits_fuel fuel fuel' words i hits :
  (length words - i ≤ fuel)%nat → (length words - i ≤ fuel')%nat →
  cap_pair_hits fuel words i hits = cap_pair_hits fuel' words i hits.
Proof.
  revert fuel' i hits. induction fuel as [|fuel IH]; intros fuel' i hits H1 H2.
  - destruct fuel' as [|fuel']; [done|]. simpl.
    destruct (Nat.ltb_spec i (length words - 1)); [lia|done].
  - destruct fuel' as [|fuel']; simpl.
    + destruct (Nat.ltb_spec i (length words - 1)); [lia|done].
    + destruct (Nat.ltb_spec i (length words - 1)); [|done].
      destruct (_ && _); apply IH; lia.
Qed.

(** C8, as the code has it.  A word is a label exactly when its text, with
    the colons at both ends stripped and lower-cased, is in [NAME_LABELS];
    the first loop appends, for every label word and each of the up to three
    words that follow it, the pad-2 union box of the two, and these boxes
    open the hits of the name detector. *)
Theorem label_adjacency (words : list Word) :
  (∀ t, is_label t = true ↔ lower (strip_colons t) ∈ NAME_LABELS)
  ∧ label_hits words [] = label_contrib words
  ∧ (∃ pairs, _find_name_hits words = label_contrib words ++ pairs)
  ∧ ∀ w nxt,
      pair_box w nxt
      = let '(x, y, wd, hg) := to_box (join (word_corners w) (word_corners nxt)) in
        _expand_bbox x y wd hg 2.
Proof.
  split; [|split; [|split]].
  - intros t. unfold is_label. apply bool_decide_eq_true.
  - by rewrite label_hits_contrib.
  - unfold _find_name_hits. rewrite label_hits_contrib. simpl.
    apply cap_pair_hits_extends.
  - apply pair_box_union.
Qed.

Example label_name_john_doe_smith :
  label_hits [mkWord "Name" 0 0 30 10; mkWord "John" 40 0 30 10;
              mkWord "Doe" 80 0 30 10; mkWord "Smith" 120 0 30 10] []
  = [(0, 0, 74, 14); (0, 0, 114, 14); (0, 0, 154, 14)].
Proof. vm_compute. reflexivity. Qed.

(** C8, as the specification words it, fails: [":Name"] is no label when only
    trailing colons are stripped, yet the code takes it for one and appends
    a box for the word that follows. *)
Lemma leading_colon_is_label :
  is_label_trailing ":Name" = false
  ∧ is_label ":Name" = true
  ∧ label_hits [mkWord ":Name" 0 0 30 10; mkWord "John" 40 0 30 10] []
    = [(0, 0, 74, 14)].
Proof. repeat split; vm_compute; reflexivity. Qed.

(** ** The pipeline *)

(** C1. When the input decodes, the pipeline either passes on the failure of
    the recognizer or of the writer, or returns the output path with a
    summary in which [ssn] and [names] are the lengths of the two merged
    lists and [total] is their sum. *)
Theorem summary_total_is_sum (ext : Externals) (fs : Files ext)
    (input_path output_path : string) (image : Image ext) :
  imread ext fs input_path = Some image →
  match _read_words_with_boxes ext image with
  | inl e => mask_sensitive_info ext fs input_path output_path = (inl e, fs)
  | inr words =>
      let ssn_boxes := _find_ssn_boxes words in
      let name_boxes := _find_name_boxes words in
      match imwrite ext fs output_path
              (draw_masks ext image (ssn_boxes ++ name_boxes)) with
      | inl e => mask_sensitive_info ext fs input_path output_path = (inl e, fs)
      | inr fs' =>
          ∃ counts,
            mask_sensitive_info ext fs input_path output_path
            = (inr (output_path, counts), fs')
            ∧ ssn counts = length ssn_boxes
            ∧ names counts = length name_boxes
            ∧ total counts = (ssn counts + names counts)%nat
      end
  end.
Proof.
  intros Hread. unfold mask_sensitive_info. rewrite Hread.
  destruct (_read_words_with_boxes ext image) as [e|words]; [done|].
  cbv zeta. destruct (imwrite _ _ _ _) as [e|fs']; [done|].
  eexists. split; [reflexivity|]. done.
Qed.

(** C9. When the image cannot be read, the pipeline raises the error of line
    154 and the file system is as it was: nothing has been written. *)
Theorem unreadable_input_raises (ext : Externals) (fs : Files ext)
    (input_path output_path : string) :
  imread ext fs input_path = None →
  mask_sensitive_info ext fs input_path output_path
  = (inl (ValueError ("Could not read image: " +:+ input_path)), fs).
Proof. intros Hread. unfold mask_sensitive_info. by rewrite Hread. Qed.

Lemma summary_total_is_sum_witness :
  ∃ counts,
    mask_sensitive_info demo [("in.png"%string, demo_page)] "in.png" "out.png"
    = (inr ("out.png"%string, counts),
       [("out.png"%string, demo_page); ("in.png"%string, demo_page)])
    ∧ ssn counts = length (_find_ssn_boxes demo_page)
    ∧ names counts = length (_find_name_boxes demo_page)
    ∧ total counts = (ssn counts + names counts)%nat.
Proof.
  apply (summary_total_is_sum demo [("in.png"%string, demo_page)]
           "in.png" "out.png" demo_page).
  reflexivity.
Defined.

Example demo_counts :
  (mask_sensitive_info demo [("in.png"%string, demo_page)] "in.png" "out.png").1
  = inr ("out.png"%string, {| ssn := 1; names := 0; total := 1 |}).
Proof. vm_compute. reflexivity. Qed.

Lemma unreadable_input_raises_witness :
  mask_sensitive_info demo [("in.png"%string, demo_page)] "missing.png" "out.png"
  = (inl (ValueError ("Could not read image: " +:+ "missing.png")),
     [("in.png"%string, demo_page)]).
Proof.
  apply (unreadable_input_raises demo [("in.png"%string, demo_page)]
           "missing.png" "out.png").
  reflexivity.
Defined.

(** ** Further properties of [_merge_overlaps] *)

Lemma while_merged_nonempty fuel rects :
  rects ≠ [] → while_merged fuel rects ≠ [].
Proof.
  revert rects. induction fuel as [|fuel IH]; intros rects Hne; [done|].
  simpl. pose proof (one_pass_spec rects) as Hs.
  destruct (one_pass rects) as [new_rects merged].
  destruct Hs as (_ & Hne' & _). destruct merged; auto.
Qed.

Lemma merged_length_le (boxes : list Box) :
  (length (_merge_overlaps boxes) ≤ length boxes)%nat.
Proof.
  rewrite merge_overlaps_unfold, length_fmap.
  pose proof (reach_length _ _
    (while_merged_reach (length boxes) (to_corners <$> boxes))) as H.
  by rewrite length_fmap in H.
Qed.

Lemma merged_nil_iff (boxes : list Box) :
  _merge_overlaps boxes = [] ↔ boxes = [].
Proof.
  rewrite merge_overlaps_unfold. split.
  - intros H. apply fmap_nil_inv in H.
    destruct boxes as [|b boxes]; [done|].
    by apply while_merged_nonempty in H.
  - by intros ->.
Qed.

(** X1. Merging never adds rectangles, and its output is empty exactly when
    its input is. *)
Theorem merge_overlaps_length (boxes : list Box) :
  (length (_merge_overlaps boxes) ≤ length boxes)%nat
  ∧ (_merge_overlaps boxes = [] ↔ boxes = []).
Proof. split; [apply merged_length_le | apply merged_nil_iff]. Qed.

Lemma separated_of_lookup (l : list Corners) :
  (∀ i j r s, (i < j)%nat → l !! i = Some r → l !! j = Some s →
     overlap r s = false) →
  separated l.
Proof.
  induction l as [|x l IH]; intros H; [done|]. split.
  - apply Forall_lookup. intros j s Hj. by apply (H 0%nat (S j)); [lia|..].
  - apply IH. intros i j r s Hij Hi Hj. apply (H (S i) (S j)); [lia|done..].
Qed.

(** X2. A list in which no rectangle overlaps a later one comes back from
    [_merge_overlaps] as it is, in the same order. *)
Theorem merge_overlaps_separated_input (boxes : list Box) :
  (∀ i j r s, (i < j)%nat → boxes !! i = Some r → boxes !! j = Some s →
     overlap (to_corners r) (to_corners s) = false) →
  _merge_overlaps boxes = boxes.
Proof.
  intros H. rewrite merge_overlaps_unfold.
  rewrite <- (length_fmap to_corners boxes).
  rewrite while_merged_fixed; [apply fmap_box_corners|].
  apply separated_of_lookup. intros i j r s Hij Hi Hj.
  rewrite list_lookup_fmap in Hi, Hj.
  destruct (boxes !! i) as [r'|] eqn:Ei; [|done].
  destruct (boxes !! j) as [s'|] eqn:Ej; [|done].
  simpl in Hi, Hj. inversion Hi; inversion Hj; subst. by apply (H i j).
Qed.

Lemma merge_overlaps_separated_input_witness :
  _merge_overlaps [(0, 0, 10, 10); (30, 0, 10, 10); (11, 5, 18, 2)]
  = [(0, 0, 10, 10); (30, 0, 10, 10); (11, 5, 18, 2)].
Proof.
  apply merge_overlaps_separated_input.
  intros [|[|[|i]]] [|[|[|j]]] r s Hij Hi Hj; simpl in Hi, Hj;
    try lia; try done; inversion Hi; inversion Hj; reflexivity.
Defined.

(** A property of rectangles that bounding unions keep is kept by every
    rewriting. *)
Lemma reach_Forall (P : Corners → Prop) l l' :
  (∀ a b, P a → P b → P (join a b)) →
  reach l l' → Forall P l → Forall P l'.
Proof.
  intros Hjoin. induction 1 as [l l' Hp | l a b rest l' Hp Hov Hr IH]; intros HF.
  - by rewrite <- Hp.
  - apply IH. rewrite Hp in HF.
    apply Forall_cons in HF as [Ha HF]. apply Forall_cons in HF as [Hb HF].
    constructor; auto.
Qed.

Lemma merge_overlaps_Forall (P : Corners → Prop) boxes :
  (∀ a b, P a → P b → P (join a b)) →
  Forall (λ b, P (to_corners b)) boxes →
  Forall (λ o, P (to_corners o)) (_merge_overlaps boxes).
Proof.
  intros Hjoin HF. rewrite merge_overlaps_unfold.
  apply Forall_fmap. apply Forall_forall. intros c Hc. simpl.
  rewrite to_corners_to_box. revert c Hc. apply Forall_forall.
  apply (reach_Forall P (to_corners <$> boxes)); [done| |by apply Forall_fmap].
  rewrite <- (length_fmap to_corners boxes). apply while_merged_reach.
Qed.

(** X3. Merging keeps boxes well formed: when every input box has a
    non-negative origin and non-negative width and height, so has every
    output box. *)
Theorem merge_overlaps_well_formed (boxes : list Box) :
  Forall (λ '(x, y, w, h), 0 ≤ x ∧ 0 ≤ y ∧ 0 ≤ w ∧ 0 ≤ h) boxes →
  Forall (λ '(x, y, w, h), 0 ≤ x ∧ 0 ≤ y ∧ 0 ≤ w ∧ 0 ≤ h) (_merge_overlaps boxes).
Proof.
  intros HF.
  pose (P := λ c : Corners,
          let '(x1, y1, x2, y2) := c in 0 ≤ x1 ∧ 0 ≤ y1 ∧ x1 ≤ x2 ∧ y1 ≤ y2).
  assert (HP : Forall (λ o, P (to_corners o)) (_merge_overlaps boxes)).
  { apply merge_overlaps_Forall.
    - intros [[[? ?] ?] ?] [[[? ?] ?] ?]. unfold P, join. lia.
    - eapply Forall_impl; [exact HF|]. intros [[[x y] w] h]. unfold P. simpl. lia. }
  eapply Forall_impl; [exact HP|]. intros [[[x y] w] h]. unfold P. simpl. lia.
Qed.

Lemma merge_overlaps_well_formed_witness :
  Forall (λ '(x, y, w, h), 0 ≤ x ∧ 0 ≤ y ∧ 0 ≤ w ∧ 0 ≤ h)
         (_merge_overlaps [(0, 0, 10, 10); (5, 5, 30, 2)]).
Proof.
  apply merge_overlaps_well_formed.
  repeat constructor; lia.
Defined.

(** X4. Merging never masks outside a rectangle that encloses every input
    box. *)
Theorem merge_overlaps_within_hull (boxes : list Box) (hull : Corners) :
  Forall (λ b, contains hull (to_corners b)) boxes →
  Forall (λ o, contains hull (to_corners o)) (_merge_overlaps boxes).
Proof.
  apply (merge_overlaps_Forall (contains hull)).
  intros a b. apply contains_join.
Qed.

Lemma merge_overlaps_within_hull_witness :
  Forall (λ o, contains (0, 0, 100, 50) (to_corners o))
         (_merge_overlaps [(0, 0, 10, 10); (5, 5, 30, 2)]).
Proof.
  apply merge_overlaps_within_hull.
  repeat constructor; simpl; lia.
Defined.

Lemma edge_join e a b :
  e ∈ edges → e (join a b) = e a ∨ e (join a b) = e b.
Proof.
  intros He. destruct a as [[[? ?] ?] ?], b as [[[? ?] ?] ?].
  unfold edges in He. repeat (apply elem_of_cons in He as [->|He]);
    [simpl; lia..|]. by apply elem_of_nil in He.
Qed.

Lemma reach_tight l l' o e :
  reach l l' → o ∈ l' → e ∈ edges →
  ∃ r, r ∈ l ∧ contains o r ∧ e r = e o.
Proof.
  intros Hr. revert o.
  induction Hr as [l l' Hp | l a b rest l' Hp Hov Hr IH]; intros o Ho He.
  - exists o. split; [by rewrite Hp|]. split; [apply contains_refl|done].
  - destruct (IH o Ho He) as (r & Hin & Hc & Hedge).
    apply elem_of_cons in Hin as [->|Hin].
    + destruct (edge_join e a b He) as [E|E].
      * exists a. rewrite Hp. split; [by left|]. split; [|congruence].
        eapply contains_trans; [done|apply contains_join_l].
      * exists b. rewrite Hp. split; [right; by left|]. split; [|congruence].
        eapply contains_trans; [done|apply contains_join_r].
    + exists r. rewrite Hp. split; [by do 2 right|done].
Qed.

(** X5. Every output box of [_merge_overlaps] is tight: each of its four
    edges is the edge of an input box that lies within it, so an output box
    is the bounding union of the input boxes it contains. *)
Theorem merge_overlaps_tight (boxes : list Box) (o : Box) (e : Corners → Z) :
  o ∈ _merge_overlaps boxes → e ∈ edges →
  ∃ r, r ∈ boxes ∧ contains (to_corners o) (to_corners r)
       ∧ e (to_corners r) = e (to_corners o).
Proof.
  intros Ho He.
  destruct (reach_tight (to_corners <$> boxes)
              (while_merged (length boxes) (to_corners <$> boxes))
              (to_corners o) e) as (c & Hc & Hcont & Hedge); [| |done|].
  - rewrite <- (length_fmap to_corners boxes). apply while_merged_reach.
  - rewrite <- merge_overlaps_corners. by apply list_elem_of_fmap_2.
  - apply list_elem_of_fmap in Hc as (r & -> & Hr). by exists r.
Qed.

Lemma merge_overlaps_tight_witness :
  ∃ r, r ∈ [(0, 0, 10, 10); (30, 0, 10, 10); (5, 5, 30, 2)]
       ∧ contains (to_corners (0, 0, 40, 10)) (to_corners r)
       ∧ (λ '(_, _, x2, _), x2) (to_corners r)
         = (λ '(_, _, x2, _), x2) (to_corners (0, 0, 40, 10)).
Proof.
  apply (merge_overlaps_tight [(0, 0, 10, 10); (30, 0, 10, 10); (5, 5, 30, 2)]
           (0, 0, 40, 10) (λ '(_, _, x2, _), x2)).
  - apply list_elem_of_In. simpl. tauto.
  - unfold edges. apply list_elem_of_In. simpl. tauto.
Defined.

(** ** Further properties of the identifier pattern *)

Lemma match_here_count (p : ascii → bool) items prev s :
  Forall (λ it, match it with
                | One cls => ∀ c, cls c = true → p c = true
                | _ => True
                end) items →
  match_here items prev s = true →
  (ones items ≤ count_chars p s)%nat.
Proof.
  intros HF. revert prev s.
  induction HF as [|it items Hit HF IH]; intros prev s Hm; simpl in *; [lia|].
  destruct it as [|cls|cls].
  - apply andb_true_iff in Hm as [_ Hm]. by eapply IH.
  - destruct s as [|c s]; [done|]. apply andb_true_iff in Hm as [Hc Hm].
    simpl. rewrite (Hit c Hc). apply IH in Hm. lia.
  - apply orb_true_iff in Hm as [Hm|Hm]; [|by eapply IH].
    destruct s as [|c s]; [done|]. apply andb_true_iff in Hm as [_ Hm].
    apply IH in Hm. simpl. lia.
Qed.

Lemma search_from_count (p : ascii → bool) items prev s :
  Forall (λ it, match it with
                | One cls => ∀ c, cls c = true → p c = true
                | _ => True
                end) items →
  search_from items prev s = true →
  (ones items ≤ count_chars p s)%nat.
Proof.
  intros HF. revert prev. induction s as [|c s IH]; intros prev Hs; simpl in Hs.
  - apply orb_true_iff in Hs as [Hm|?]; [|done].
    by eapply match_here_count.
  - apply orb_true_iff in Hs as [Hm|Hs].
    + by eapply match_here_count.
    + apply IH in Hs. simpl. lia.
Qed.

(** X6. A text in which [SSN_REGEX] finds a match holds at least nine
    digits: a word with fewer digits is never taken for an identifier. *)
Theorem ssn_regex_needs_nine_digits (t : string) :
  search SSN_REGEX t = true → (9 ≤ count_chars is_digit t)%nat.
Proof.
  intros Hs. apply (search_from_count is_digit SSN_REGEX None t) in Hs; [done|].
  unfold SSN_REGEX. simpl. repeat constructor; auto.
Qed.

Lemma ssn_regex_needs_nine_digits_witness :
  (9 ≤ count_chars is_digit "SSN:123-45-6789")%nat.
Proof. apply ssn_regex_needs_nine_digits. vm_compute. reflexivity. Defined.

Lemma search_from_app items pre prev s :
  match_here items (match last_char pre with Some c => Some c | None => prev end) s
  = true →
  search_from items prev (pre +:+ s) = true.
Proof.
  revert prev. induction pre as [|c pre IH]; intros prev Hm; simpl in *.
  - destruct s; simpl; by rewrite Hm.
  - apply orb_true_iff. right. apply IH. by destruct (last_char pre).
Qed.

Lemma is_digit_word c : is_digit c = true → is_word c = true.
Proof. unfold is_word. by intros ->. Qed.

Lemma is_digit_not_sep c : is_digit c = true → is_sep c = false.
Proof.
  unfold is_digit, is_sep. intros H. apply andb_true_iff in H as [H1 H2].
  apply Nat.leb_le in H1, H2.
  apply orb_false_iff. split; apply Nat.eqb_neq; lia.
Qed.

(** X7. Nine digits grouped 3-2-4, each group set off from the next by
    nothing, a hyphen or a space, are found in any text in which they are
    not glued to a word character on either side. *)
Theorem ssn_regex_finds_identifier (pre a s1 b s2 c post : string) :
  String.length a = 3%nat → String.length b = 2%nat → String.length c = 4%nat →
  all_digits a = true → all_digits b = true → all_digits c = true →
  is_separator s1 → is_separator s2 →
  word_before (last_char pre) = false → word_here post = false →
  search SSN_REGEX (pre +:+ a +:+ s1 +:+ b +:+ s2 +:+ c +:+ post) = true.
Proof.
  intros La Lb Lc Da Db Dc Hs1 Hs2 Hpre Hpost.
  apply search_from_app.
  destruct (last_char pre) as [p|]; simpl in *.
  all: destruct a as [|a1 [|a2 [|a3 [|]]]]; try discriminate La.
  all: destruct b as [|b1 [|b2 [|]]]; try discriminate Lb.
  all: destruct c as [|c1 [|c2 [|c3 [|c4 [|]]]]]; try discriminate Lc.
  all: unfold all_digits in *; simpl in Da, Db, Dc.
  all: repeat match goal with
              | H : _ && _ = true |- _ => apply andb_true_iff in H as [? ?]
              end.
  all: repeat match goal with
              | H : is_digit ?d = true |- _ =>
                  pose proof (is_digit_word d H);
                  pose proof (is_digit_not_sep d H);
                  revert H
              end; intros.
  all: destruct Hs1 as [-> | [-> | ->]], Hs2 as [-> | [-> | ->]]; simpl.
  all: repeat match goal with
              | H : _ = _ |- _ => rewrite H
              end; simpl; try reflexivity.
  all: destruct post; simpl in *; repeat match goal with
              | H : _ = _ |- _ => rewrite H
              end; reflexivity.
Qed.

Lemma ssn_regex_finds_identifier_witness :
  search SSN_REGEX ("SSN:" +:+ "123" +:+ "-" +:+ "45" +:+ "" +:+ "6789" +:+ ".")
  = true.
Proof.
  apply ssn_regex_finds_identifier; try reflexivity;
    unfold is_separator; auto.
Defined.

(** ** Further properties of the detectors *)

Lemma foldl_collect {A B} (f : A → bool) (g : A → B) (l : list A) (acc : list B) :
  foldl (λ hits w, if f w then hits ++ [g w] else hits) acc l
  = acc ++ (g <$> filter (λ w, f w = true) l).
Proof.
  revert acc. induction l as [|w l IH]; intros acc; simpl.
  { by rewrite app_nil_r. }
  rewrite IH, filter_cons. destruct (f w) eqn:E.
  - rewrite decide_True by done. by rewrite <- (assoc_L (++)).
  - rewrite decide_False by done. done.
Qed.

Lemma find_ssn_hits_filter words :
  _find_ssn_hits words
  = (λ w, _expand_bbox (left w) (top w) (width w) (height w) 2)
      <$> filter (λ w, search SSN_REGEX (text w) = true) words.
Proof. unfold _find_ssn_hits. by rewrite foldl_collect. Qed.

Lemma expand_bbox_paints cols rows x y w h p px py :
  0 ≤ p →
  paints cols rows (x, y, w, h) px py →
  paints cols rows (_expand_bbox x y w h p) px py.
Proof. unfold paints, _expand_bbox. lia. Qed.

Lemma merged_box_paints boxes r :
  r ∈ boxes →
  ∃ o, o ∈ _merge_overlaps boxes
       ∧ ∀ cols rows px py, paints cols rows r px py → paints cols rows o px py.
Proof.
  intros Hin. destruct (merged_box_around boxes r Hin) as (o & Ho & Hc).
  exists o. split; [done|]. intros cols rows px py. by apply contains_paints.
Qed.

Lemma ssn_word_painted (words : list Word) (w : Word) :
  w ∈ words → search SSN_REGEX (text w) = true →
  ∃ o, o ∈ _find_ssn_boxes words
       ∧ ∀ cols rows px py,
           paints cols rows (word_box w) px py → paints cols rows o px py.
Proof.
  intros Hin Hm.
  destruct (merged_box_paints (_find_ssn_hits words)
              (_expand_bbox (left w) (top w) (width w) (height w) 2))
    as (o & Ho & Hp).
  { rewrite find_ssn_hits_filter.
    apply (list_elem_of_fmap_2
             (λ w, _expand_bbox (left w) (top w) (width w) (height w) 2)).
    by apply list_elem_of_filter. }
  exists o. split; [done|]. intros cols rows px py Hw.
  apply Hp. by apply expand_bbox_paints.
Qed.



(** X9. The identifier detector returns at most one box per matching word,
    and returns no box exactly when no word matches. *)
Theorem find_ssn_boxes_count (words : list Word) :
  (length (_find_ssn_boxes words)
   ≤ length (filter (λ w, search SSN_REGEX (text w) = true) words))%nat
  ∧ (_find_ssn_boxes words = []
     ↔ ∀ w, w ∈ words → search SSN_REGEX (text w) = false).
Proof.
  unfold _find_ssn_boxes. split.
  - etransitivity; [apply merged_length_le|].
    by rewrite find_ssn_hits_filter, length_fmap.
  - rewrite merged_nil_iff, find_ssn_hits_filter. split.
    + intros H w Hw. apply fmap_nil_inv in H.
      destruct (search SSN_REGEX (text w)) eqn:E; [|done].
      assert (Hin : w ∈ filter (λ w, search SSN_REGEX (text w) = true) words)
        by (by apply list_elem_of_filter).
      rewrite H in Hin. by apply elem_of_nil in Hin.
    + intros H. replace (filter _ words) with (@nil Word); [done|].
      symmetry. clear -H. induction words as [|w words IH]; [done|].
      rewrite filter_cons, decide_False.
      * apply IH. intros v Hv. apply H. by right.
      * rewrite (H w) by (by left). done.
Qed.

Lemma cap_pair_hits_from fuel words pre suf hits :
  words = pre ++ suf → (length suf ≤ fuel)%nat →
  cap_pair_hits fuel words (length pre) hits = hits ++ cap_pairs suf.
Proof.
  revert pre suf hits.
  induction fuel as [|fuel IH]; intros pre suf hits -> Hfuel.
  { destruct suf; [|simpl in Hfuel; lia]. simpl. by rewrite app_nil_r. }
  cbn [cap_pair_hits]. rewrite length_app.
  destruct suf as [|w1 [|w2 rest]].
  - destruct (Nat.ltb_spec (length pre) (length pre + length (@nil Word) - 1));
      [simpl in *; lia|]. simpl. by rewrite app_nil_r.
  - destruct (Nat.ltb_spec (length pre) (length pre + length [w1] - 1));
      [simpl in *; lia|]. simpl. by rewrite app_nil_r.
  - destruct (Nat.ltb_spec (length pre) (length pre + length (w1 :: w2 :: rest) - 1))
      as [_|Hge]; [|simpl in Hge; lia].
    assert (E1 : (pre ++ w1 :: w2 :: rest) !!! length pre = w1)
      by (by apply list_lookup_total_middle).
    assert (E2 : (pre ++ w1 :: w2 :: rest) !!! (length pre + 1)%nat = w2).
    { replace (pre ++ w1 :: w2 :: rest) with ((pre ++ [w1]) ++ w2 :: rest)
        by (by rewrite <- (assoc_L (++))).
      apply list_lookup_total_middle. rewrite length_app. simpl. lia. }
    rewrite E1, E2. simpl in Hfuel. cbn [cap_pairs].
    destruct (is_cap_word (text w1) && is_cap_word (text w2)).
    + specialize (IH (pre ++ [w1; w2]) rest (hits ++ [pair_box w1 w2])).
      rewrite length_app in IH. simpl in IH.
      rewrite IH; [|by rewrite <- (assoc_L (++))|lia].
      by rewrite <- (assoc_L (++)).
    + specialize (IH (pre ++ [w1]) (w2 :: rest) hits).
      rewrite length_app in IH. simpl in IH.
      rewrite IH; [done|by rewrite <- (assoc_L (++))|simpl; lia].
Qed.

Lemma find_name_hits_split words :
  _find_name_hits words = label_contrib words ++ cap_pairs words.
Proof.
  unfold _find_name_hits. rewrite label_hits_contrib. simpl.
  by apply (cap_pair_hits_from (length words) words [] words).
Qed.

(** X10. The hits of the name detector are the label boxes followed by the
    boxes of the capitalized pairs, where the pairs are taken from left to
    right and a word that closed a pair never opens the next one. *)
Theorem find_name_hits_pairs (words : list Word) :
  _find_name_hits words = label_contrib words ++ cap_pairs words.
Proof. apply find_name_hits_split. Qed.

Lemma cap_pairs_length words : (2 * length (cap_pairs words) ≤ length words)%nat.
Proof.
  remember (length words) as n eqn:Hn. revert words Hn.
  induction (lt_wf n) as [n _ IH]. intros [|w1 [|w2 rest]] ->; simpl; try lia.
  destruct (_ && _); simpl.
  - pose proof (IH (length rest) ltac:(simpl; lia) rest eq_refl). lia.
  - pose proof (IH (length (w2 :: rest)) ltac:(simpl; lia) (w2 :: rest) eq_refl).
    simpl in *. lia.
Qed.

(** X11. The capitalized-pair loop appends at most one box for every two
    words; with fewer than two words it appends none. *)
Theorem cap_pair_hits_count (words : list Word) (hits : list Box) :
  ∃ pairs,
    cap_pair_hits (length words) words 0 hits = hits ++ pairs
    ∧ (2 * length pairs ≤ length words)%nat.
Proof.
  exists (cap_pairs words). split.
  - by apply (cap_pair_hits_from (length words) words [] words).
  - apply cap_pairs_length.
Qed.









(** ** Further properties of the text tests *)

Lemma substring_0_0 s : substring 0 0 s = ""%string.
Proof. by destruct s. Qed.

Lemma substring_0_length s : substring 0 (String.length s) s = s.
Proof. induction s as [|c s IH]; [done|]. simpl. by rewrite IH. Qed.

Lemma is_upper_not_lower c : is_upper c = true → is_lower c = false.
Proof.
  unfold is_upper, is_lower. intros H. apply andb_true_iff in H as [H1 H2].
  apply Nat.leb_le in H1, H2. apply andb_false_iff. left.
  apply Nat.leb_gt. lia.
Qed.

(** X14. A word is capitalized exactly when it has at least two characters,
    starts with an upper-case letter, and the rest holds no upper-case
    letter and at least one lower-case letter; digits and punctuation in the
    rest do not matter. *)
Theorem is_cap_word_chars (s : string) :
  is_cap_word s
  = match s with
    | String c ((String _ _) as rest) =>
        is_upper c
        && forallb (λ d, negb (is_upper d)) (chars rest)
        && existsb is_lower (chars rest)
    | _ => false
    end.
Proof.
  destruct s as [|c [|d rest]]; [done..|].
  unfold is_cap_word.
  replace (1 <? String.length (String c (String d rest)))%nat with true by done.
  replace (substring 0 1 (String c (String d rest))) with (String c "")
    by (simpl; by rewrite ?substring_0_0).
  replace (substring 1 (String.length (String c (String d rest)) - 1)
             (String c (String d rest)))
    with (String d rest).
  2:{ simpl. by rewrite ?Nat.sub_0_r, substring_0_length. }
  unfold isupper, islower. cbn [chars list_ascii_of_string forallb existsb].
  destruct (is_upper c) eqn:E; simpl.
  - by rewrite (is_upper_not_lower c E).
  - by destruct (is_lower c).
Qed.

Lemma rstrip_colons_app_colon s : rstrip_colons (s +:+ ":") = rstrip_colons s.
Proof.
  induction s as [|c s IH]; [done|]. simpl. by rewrite IH.
Qed.

Lemma strip_colons_app_colon s : strip_colons (s +:+ ":") = strip_colons s.
Proof.
  unfold strip_colons. induction s as [|c s IH]; [done|].
  simpl. destruct (is_colon c); [done|].
  change (String c (s +:+ ":")) with (String c s +:+ ":").
  apply rstrip_colons_app_colon.
Qed.

Lemma lower_char_colon c : is_colon (lower_char c) = is_colon c.
Proof.
  unfold lower_char. destruct (is_upper c) eqn:E; [|done].
  unfold is_upper in E. apply andb_true_iff in E as [H1 H2].
  apply Nat.leb_le in H1, H2. unfold is_colon, code.
  rewrite nat_ascii_embedding by (unfold code in *; lia).
  destruct (Nat.eqb_spec (nat_of_ascii c + 32) 58), (Nat.eqb_spec (nat_of_ascii c) 58);
    try done; unfold code in *; lia.
Qed.

Lemma lower_char_idemp c : lower_char (lower_char c) = lower_char c.
Proof.
  unfold lower_char. destruct (is_upper c) eqn:E; [|by rewrite E].
  assert (Hup : is_upper (ascii_of_nat (code c + 32)) = false).
  { unfold is_upper in *. apply andb_true_iff in E as [H1 H2].
    apply Nat.leb_le in H1, H2. unfold code in *.
    rewrite nat_ascii_embedding by lia.
    apply andb_false_iff. right. apply Nat.leb_gt. lia. }
  by rewrite Hup.
Qed.

Lemma lower_idemp s : lower (lower s) = lower s.
Proof. induction s as [|c s IH]; [done|]. simpl. by rewrite lower_char_idemp, IH. Qed.

Lemma lower_lstrip s : lstrip_colons (lower s) = lower (lstrip_colons s).
Proof.
  induction s as [|c s IH]; [done|]. simpl.
  rewrite lower_char_colon. by destruct (is_colon c).
Qed.

Lemma lower_rstrip s : rstrip_colons (lower s) = lower (rstrip_colons s).
Proof.
  induction s as [|c s IH]; [done|]. simpl. rewrite IH.
  destruct (rstrip_colons s); simpl; [|done].
  rewrite lower_char_colon. by destruct (is_colon c).
Qed.

Lemma lower_strip s : strip_colons (lower s) = lower (strip_colons s).
Proof. unfold strip_colons. by rewrite lower_lstrip, lower_rstrip. Qed.

(** X15. The label test ignores one more colon at either end, and ignores
    case: two texts with the same lower-case form are both labels or
    neither. *)
Theorem is_label_colons_and_case (t t' : string) :
  is_label (":" +:+ t) = is_label t
  ∧ is_label (t +:+ ":") = is_label t
  ∧ (lower t = lower t' → is_label t = is_label t').
Proof.
  unfold is_label. split; [done|]. split.
  - by rewrite strip_colons_app_colon.
  - intros H.
    rewrite <- (lower_idemp (strip_colons t)), <- (lower_idemp (strip_colons t')).
    by rewrite <- !lower_strip, H.
Qed.

Lemma is_label_colons_and_case_witness :
  is_label (":" +:+ "Holder") = is_label "Holder"
  ∧ is_label ("Holder" +:+ ":") = is_label "Holder"
  ∧ (lower "Holder" = lower "HOLDER" → is_label "Holder" = is_label "HOLDER").
Proof. apply is_label_colons_and_case. Defined.

(** ** The painted image *)

Lemma draw_masks_cons ext image x y w h boxes :
  draw_masks ext image ((x, y, w, h) :: boxes)
  = draw_masks ext (rectangle ext image (x, y) (x + w, y + h)) boxes.
Proof. reflexivity. Qed.

Lemma draw_masks_size ext cv image boxes :
  fills_black ext cv → Forall sized boxes →
  img_cols cv (draw_masks ext image boxes) = img_cols cv image
  ∧ img_rows cv (draw_masks ext image boxes) = img_rows cv image.
Proof.
  intros Hlaw HF. revert image.
  induction HF as [|[[[x y] w] h] boxes [Hw Hh] HF IH]; intros image; [done|].
  rewrite draw_masks_cons.
  destruct (IH (rectangle ext image (x, y) (x + w, y + h))) as [-> ->].
  destruct (Hlaw image x y (x + w) (y + h)) as (-> & -> & _); [lia..|]. done.
Qed.

Lemma draw_masks_pixel ext cv image boxes px py :
  fills_black ext cv → Forall sized boxes →
  0 ≤ px < img_cols cv image → 0 ≤ py < img_rows cv image →
  pixel cv (draw_masks ext image boxes) px py
  = if bool_decide (Exists (λ b, paints (img_cols cv image) (img_rows cv image) b px py)
                           boxes)
    then (0, 0, 0) else pixel cv image px py.
Proof.
  intros Hlaw HF. revert image.
  induction HF as [|[[[x y] w] h] boxes [Hw Hh] HF IH]; intros image Hx Hy.
  { rewrite bool_decide_eq_false_2; [done|]. by intros ?%Exists_nil. }
  rewrite draw_masks_cons.
  destruct (Hlaw image x y (x + w) (y + h)) as (Ec & Er & Hp); [lia..|].
  rewrite IH by (by rewrite ?Ec, ?Er). rewrite Ec, Er, (Hp px py Hx Hy).
  destruct (bool_decide (Exists _ boxes)) eqn:Eb.
  - rewrite bool_decide_eq_true_2; [done|].
    apply Exists_cons. right. by apply bool_decide_eq_true in Eb.
  - apply bool_decide_eq_false in Eb.
    destruct (bool_decide (x ≤ px ≤ x + w ∧ y ≤ py ≤ y + h)) eqn:Ein.
    + apply bool_decide_eq_true in Ein.
      rewrite bool_decide_eq_true_2; [done|]. apply Exists_cons. left.
      unfold paints. lia.
    + apply bool_decide_eq_false in Ein.
      rewrite bool_decide_eq_false_2; [done|].
      intros [Hhead|Htail]%Exists_cons; [|done]. unfold paints in Hhead. lia.
Qed.

Lemma pair_box_sized w nxt : word_sized w → sized (pair_box w nxt).
Proof. unfold word_sized, sized, pair_box, _expand_bbox. lia. Qed.

Lemma label_contrib_sized words :
  Forall word_sized words → Forall sized (label_contrib words).
Proof.
  induction 1 as [|w following Hw HF IH]; simpl; [done|].
  apply Forall_app. split; [|done].
  destruct (is_label (text w)); [|done].
  apply Forall_fmap, Forall_forall. intros nxt _. by apply pair_box_sized.
Qed.

Lemma cap_pairs_sized words :
  Forall word_sized words → Forall sized (cap_pairs words).
Proof.
  remember (length words) as n eqn:Hn. revert words Hn.
  induction (lt_wf n) as [n _ IH]. intros [|w1 [|w2 rest]] -> HF; simpl; try done.
  apply Forall_cons in HF as [H1 HF].
  destruct (_ && _).
  - constructor; [by apply pair_box_sized|].
    apply Forall_cons in HF as [_ HF].
    by apply (IH (length rest) ltac:(simpl; lia) rest eq_refl).
  - by apply (IH (length (w2 :: rest)) ltac:(simpl; lia) (w2 :: rest) eq_refl).
Qed.

Lemma merged_sized boxes : Forall sized boxes → Forall sized (_merge_overlaps boxes).
Proof.
  intros HF.
  pose (P := λ c : Corners, let '(x1, y1, x2, y2) := c in x1 ≤ x2 ∧ y1 ≤ y2).
  assert (HP : Forall (λ o, P (to_corners o)) (_merge_overlaps boxes)).
  { apply merge_overlaps_Forall.
    - intros [[[? ?] ?] ?] [[[? ?] ?] ?]. unfold P, join. lia.
    - eapply Forall_impl; [exact HF|]. intros [[[x y] w] h]. unfold P, sized. simpl. lia. }
  eapply Forall_impl; [exact HP|]. intros [[[x y] w] h]. unfold P, sized. simpl. lia.
Qed.

Lemma detector_boxes_sized words :
  Forall word_sized words →
  Forall sized (_find_ssn_boxes words ++ _find_name_boxes words).
Proof.
  intros HF. apply Forall_app. split; apply merged_sized.
  - rewrite find_ssn_hits_filter. apply Forall_fmap, Forall_forall.
    intros w Hw%list_elem_of_filter. destruct Hw as [_ Hw].
    rewrite Forall_forall in HF. specialize (HF w Hw).
    unfold word_sized, sized, _expand_bbox in *. simpl. lia.
  - rewrite find_name_hits_split. apply Forall_app.
    split; [by apply label_contrib_sized | by apply cap_pairs_sized].
Qed.

(** A run that returns has read the image, recognized its words, and
    written the image painted with the boxes of the two detectors. *)
Lemma mask_sensitive_info_returns ext fs input_path output_path path counts fs' :
  mask_sensitive_info ext fs input_path output_path = (inr (path, counts), fs') →
  ∃ image words,
    imread ext fs input_path = Some image
    ∧ _read_words_with_boxes ext image = inr words
    ∧ imwrite ext fs output_path
        (draw_masks ext image (_find_ssn_boxes words ++ _find_name_boxes words))
      = inr fs'
    ∧ path = output_path.
Proof.
  unfold mask_sensitive_info. intros H.
  destruct (imread ext fs input_path) as [image|] eqn:Er; [|done].
  destruct (_read_words_with_boxes ext image) as [e|words] eqn:Eo; [done|].
  cbv zeta in H. destruct (imwrite _ _ _ _) as [e|fs''] eqn:Ew; [done|].
  exists image, words. inversion H; subst. done.
Qed.

(** X16. When painting works as OpenCV documents it and the recognizer
    reports no negative sizes, the image a successful run writes has the
    size of the input and is black on every pixel of every word that holds
    an identifier. *)
Theorem written_image_hides_identifiers (ext : Externals) (cv : Canvas ext)
    (fs fs' : Files ext) (input_path output_path path : string) (counts : Counts) :
  fills_black ext cv →
  (∀ image words,
     _read_words_with_boxes ext image = inr words → Forall word_sized words) →
  mask_sensitive_info ext fs input_path output_path = (inr (path, counts), fs') →
  ∃ image words written,
    imread ext fs input_path = Some image
    ∧ _read_words_with_boxes ext image = inr words
    ∧ imwrite ext fs output_path written = inr fs'
    ∧ img_cols cv written = img_cols cv image
    ∧ img_rows cv written = img_rows cv image
    ∧ ∀ w px py,
        w ∈ words → search SSN_REGEX (text w) = true →
        paints (img_cols cv image) (img_rows cv image) (word_box w) px py →
        pixel cv written px py = (0, 0, 0).
Proof.
  intros Hlaw Hocr Hrun.
  destruct (mask_sensitive_info_returns _ _ _ _ _ _ _ Hrun)
    as (image & words & Hread & Hwords & Hwrite & _).
  pose proof (detector_boxes_sized words (Hocr image words Hwords)) as Hsized.
  exists image, words, (draw_masks ext image
                          (_find_ssn_boxes words ++ _find_name_boxes words)).
  destruct (draw_masks_size ext cv image _ Hlaw Hsized) as [Ec Er].
  repeat split; try done.
  intros w px py Hw Hm Hp.
  destruct (ssn_word_painted words w Hw Hm) as (o & Ho & Hpaint).
  assert (Hin : 0 ≤ px < img_cols cv image ∧ 0 ≤ py < img_rows cv image).
  { unfold paints, word_box in Hp. tauto. }
  rewrite (draw_masks_pixel ext cv image _ px py Hlaw Hsized) by tauto.
  rewrite bool_decide_eq_true_2; [done|].
  apply Exists_exists. exists o. split; [|by apply Hpaint].
  apply elem_of_app. by left.
Qed.

(** X17. Under the same conditions a successful run changes no pixel that
    lies outside every box of the two detectors. *)
Theorem written_image_keeps_the_rest (ext : Externals) (cv : Canvas ext)
    (fs fs' : Files ext) (input_path output_path path : string) (counts : Counts) :
  fills_black ext cv →
  (∀ image words,
     _read_words_with_boxes ext image = inr words → Forall word_sized words) →
  mask_sensitive_info ext fs input_path output_path = (inr (path, counts), fs') →
  ∃ image words written,
    imread ext fs input_path = Some image
    ∧ _read_words_with_boxes ext image = inr words
    ∧ imwrite ext fs output_path written = inr fs'
    ∧ ∀ px py,
        0 ≤ px < img_cols cv image → 0 ≤ py < img_rows cv image →
        (∀ b, b ∈ _find_ssn_boxes words ++ _find_name_boxes words →
              ¬ paints (img_cols cv image) (img_rows cv image) b px py) →
        pixel cv written px py = pixel cv image px py.
Proof.
  intros Hlaw Hocr Hrun.
  destruct (mask_sensitive_info_returns _ _ _ _ _ _ _ Hrun)
    as (image & words & Hread & Hwords & Hwrite & _).
  pose proof (detector_boxes_sized words (Hocr image words Hwords)) as Hsized.
  exists image, words, (draw_masks ext image
                          (_find_ssn_boxes words ++ _find_name_boxes words)).
  repeat split; try done.
  intros px py Hx Hy Hout.
  rewrite (draw_masks_pixel ext cv image _ px py Hlaw Hsized) by done.
  rewrite bool_decide_eq_false_2; [done|].
  intros (b & Hb & Hp)%Exists_exists. by apply (Hout b).
Qed.

Lemma raster_fills_black : fills_black raster raster_canvas.
Proof. intros image x1 y1 x2 y2 Hx Hy. repeat split. Qed.

Lemma raster_words_sized (image : Image raster) (words : list Word) :
  _read_words_with_boxes raster image = inr words → Forall word_sized words.
Proof.
  intros H. inversion H; subst. repeat constructor; simpl; lia.
Qed.

Lemma written_image_hides_identifiers_witness :
  ∃ image words written,
    imread raster [] "in.png" = Some image
    ∧ _read_words_with_boxes raster image = inr words
    ∧ imwrite raster [] "out.png" written = inr [("out.png"%string, raster_out)]
    ∧ img_cols raster_canvas written = img_cols raster_canvas image
    ∧ img_rows raster_canvas written = img_rows raster_canvas image
    ∧ ∀ w px py,
        w ∈ words → search SSN_REGEX (text w) = true →
        paints (img_cols raster_canvas image) (img_rows raster_canvas image)
               (word_box w) px py →
        pixel raster_canvas written px py = (0, 0, 0).
Proof.
  apply (written_image_hides_identifiers raster raster_canvas []
           [("out.png"%string, raster_out)] "in.png" "out.png" "out.png"
           {| ssn := 1; names := 0; total := 1 |}).
  - apply raster_fills_black.
  - apply raster_words_sized.
  - vm_compute. reflexivity.
Defined.

Lemma written_image_keeps_the_rest_witness :
  ∃ image words written,
    imread raster [] "in.png" = Some image
    ∧ _read_words_with_boxes raster image = inr words
    ∧ imwrite raster [] "out.png" written = inr [("out.png"%string, raster_out)]
    ∧ ∀ px py,
        0 ≤ px < img_cols raster_canvas image →
        0 ≤ py < img_rows raster_canvas image →
        (∀ b, b ∈ _find_ssn_boxes words ++ _find_name_boxes words →
              ¬ paints (img_cols raster_canvas image) (img_rows raster_canvas image)
                       b px py) →
        pixel raster_canvas written px py = pixel raster_canvas image px py.
Proof.
  apply (written_image_keeps_the_rest raster raster_canvas []
           [("out.png"%string, raster_out)] "in.png" "out.png" "out.png"
           {| ssn := 1; names := 0; total := 1 |}).
  - apply raster_fills_black.
  - apply raster_words_sized.
  - vm_compute. reflexivity.
Defined.

Example raster_out_pixels :
  raster_out 100 15 = (0, 0, 0) ∧ raster_out 20 15 = (255, 255, 255).
Proof. split; vm_compute; reflexivity. Qed.

(** ** The upload filter of [app.py] *)

Lemma rsplit_dot_none s : rsplit_dot s = None ↔ contains_dot s = false.
Proof.
  induction s as [|c s IH]; [done|]. simpl.
  destruct (rsplit_dot s) as [[a b]|].
  - split; [done|]. intros H. apply orb_false_iff in H as [_ H].
    by apply IH in H.
  - destruct (is_dot c); simpl; [done|]. split; [|done]. intros _. by apply IH.
Qed.

Lemma rsplit_dot_join base ext :
  contains_dot ext = false →
  rsplit_dot (base +:+ "." +:+ ext) = Some (base, ext).
Proof.
  intros H. apply rsplit_dot_none in H.
  induction base as [|c base IH].
  - change (rsplit_dot (String "." ext) = Some (EmptyString, ext)).
    simpl. by rewrite H.
  - change (rsplit_dot (String c (base +:+ "." +:+ ext)) = Some (String c base, ext)).
    simpl. by rewrite IH.
Qed.

Lemma rsplit_dot_split s a b :
  rsplit_dot s = Some (a, b) → s = a +:+ "." +:+ b ∧ contains_dot b = false.
Proof.
  revert a. induction s as [|c s IH]; intros a H; [done|]. simpl in H.
  destruct (rsplit_dot s) as [[a' b']|] eqn:E.
  - inversion H; subst. destruct (IH a' eq_refl) as [-> Hb]. done.
  - destruct (is_dot c) eqn:Ec; [|done]. inversion H; subst.
    split; [|by apply rsplit_dot_none].
    unfold is_dot, code in Ec. apply Nat.eqb_eq in Ec.
    simpl. f_equal. rewrite <- (ascii_nat_embedding c), Ec. done.
Qed.

Lemma lower_char_dot c : is_dot (lower_char c) = is_dot c.
Proof.
  unfold lower_char. destruct (is_upper c) eqn:E; [|done].
  unfold is_upper in E. apply andb_true_iff in E as [H1 H2].
  apply Nat.leb_le in H1, H2. unfold is_dot, code in *.
  rewrite nat_ascii_embedding by lia.
  destruct (Nat.eqb_spec (nat_of_ascii c + 32) 46), (Nat.eqb_spec (nat_of_ascii c) 46);
    try done; lia.
Qed.

Lemma contains_dot_lower s : contains_dot (lower s) = contains_dot s.
Proof. induction s as [|c s IH]; [done|]. simpl. by rewrite lower_char_dot, IH. Qed.

Lemma allowed_extension_no_dot ext :
  lower ext ∈ ALLOWED_EXTENSIONS → contains_dot ext = false.
Proof.
  intros H. rewrite <- contains_dot_lower.
  unfold ALLOWED_EXTENSIONS in H.
  apply elem_of_union in H as [H|H]; [apply elem_of_union in H as [H|H]|];
    apply elem_of_singleton in H; by rewrite H.
Qed.

Lemma allowed_file_join base ext :
  contains_dot ext = false →
  allowed_file (base +:+ "." +:+ ext)
  = bool_decide (lower ext ∈ ALLOWED_EXTENSIONS).
Proof.
  intros H. unfold allowed_file, rsplit1. rewrite (rsplit_dot_join base ext H).
  assert (Hd : contains_dot (base +:+ "." +:+ ext) = true).
  { destruct (contains_dot (base +:+ "." +:+ ext)) eqn:E; [done|].
    apply rsplit_dot_none in E. by rewrite (rsplit_dot_join base ext H) in E. }
  by rewrite Hd.
Qed.

(** X18. A file name is allowed exactly when it ends in a dot followed by
    [png], [jpg] or [jpeg] in any mix of upper and lower case. *)
Theorem allowed_file_iff (filename : string) :
  allowed_file filename = true
  ↔ ∃ base ext, filename = base +:+ "." +:+ ext
                ∧ lower ext ∈ ALLOWED_EXTENSIONS.
Proof.
  split.
  - unfold allowed_file, rsplit1. intros H. apply andb_true_iff in H as [Hd H].
    destruct (rsplit_dot filename) as [[a b]|] eqn:E.
    + apply rsplit_dot_split in E as [-> _]. exists a, b. split; [done|].
      by apply bool_decide_eq_true in H.
    + apply rsplit_dot_none in E. congruence.
  - intros (base & ext & -> & Hext).
    rewrite allowed_file_join by (by apply allowed_extension_no_dot).
    by apply bool_decide_eq_true.
Qed.

(** X19. Only what follows the last dot decides: a name without a dot is
    refused, and a name that ends in a dot and a dot-free extension is
    allowed exactly when that extension is, whatever stands before it. *)
Theorem allowed_file_last_extension (base ext : string) :
  (contains_dot base = false → allowed_file base = false)
  ∧ (contains_dot ext = false →
     allowed_file (base +:+ "." +:+ ext)
     = bool_decide (lower ext ∈ ALLOWED_EXTENSIONS)).
Proof.
  split.
  - intros H. unfold allowed_file. by rewrite H.
  - apply allowed_file_join.
Qed.

Lemma allowed_file_last_extension_witness :
  (contains_dot "photo.png" = false → allowed_file "photo.png" = false)
  ∧ (contains_dot "exe" = false →
     allowed_file ("photo.png" +:+ "." +:+ "exe")
     = bool_decide (lower "exe" ∈ ALLOWED_EXTENSIONS)).
Proof. apply allowed_file_last_extension. Defined.

Example allowed_file_examples :
  allowed_file "scan.PNG" = true ∧ allowed_file "scan.png.exe" = false
  ∧ allowed_file "png" = false ∧ allowed_file ".jpeg" = true
  ∧ allowed_file "scan." = false.
Proof. repeat split; vm_compute; reflexivity. Qed.

(** ** The upload route of [app.py] *)

(** X20. The route stores and processes nothing it refuses: whenever the
    file system has changed, the request was a POST with a file part whose
    name is not empty and passes [allowed_file]. *)
Theorem index_stores_only_allowed (ext : Externals) (web : Web ext) (ts : string)
    (fs : Files ext) (req : Request (Content web)) :
  (index ext web ts fs req).2 ≠ fs →
  method req = "POST"%string
  ∧ ∃ file, files req !! "file"%string = Some file
            ∧ filename file ≠ ""%string
            ∧ allowed_file (filename file) = true.
Proof.
  unfold index. intros H.
  destruct (bool_decide (method req = "POST"%string)) eqn:Em; [|done].
  apply bool_decide_eq_true in Em. split; [done|].
  destruct (files req !! "file"%string) as [file|]; [|done].
  exists file. split; [done|].
  destruct (bool_decide (filename file = ""%string)) eqn:En; [done|].
  apply bool_decide_eq_false in En. split; [done|].
  by destruct (allowed_file (filename file)).
Qed.

(** X21. An allowed upload that cannot be decoded is left in the upload
    folder: the route saves it first, the pipeline then raises without
    writing, and nothing removes the saved file. *)
Theorem index_keeps_unreadable_upload (ext : Externals) (web : Web ext)
    (ts : string) (fs : Files ext) (req : Request (Content web))
    (file : Upload (Content web)) :
  method req = "POST"%string →
  files req !! "file"%string = Some file →
  filename file ≠ ""%string →
  allowed_file (filename file) = true →
  let input_path :=
    path_join web (UPLOAD_FOLDER web)
      (ts +:+ "-" +:+ secure_filename web (filename file)) in
  imread ext (save web fs input_path (body file)) input_path = None →
  index ext web ts fs req
  = (Raised (ValueError ("Could not read image: " +:+ input_path)),
     save web fs input_path (body file)).
Proof.
  intros Hm Hf Hn Ha input_path Hread. unfold index.
  rewrite bool_decide_eq_true_2 by done. rewrite Hf.
  rewrite bool_decide_eq_false_2 by done. rewrite Ha. cbv zeta.
  unfold mask_sensitive_info. fold input_path. by rewrite Hread.
Qed.

Lemma index_stores_only_allowed_witness :
  method page_request = "POST"%string
  ∧ ∃ file, files page_request !! "file"%string = Some file
            ∧ filename file ≠ ""%string
            ∧ allowed_file (filename file) = true.
Proof.
  apply (index_stores_only_allowed shelf shelf_web "20240101-120000" []).
  vm_compute. discriminate.
Defined.

Lemma index_keeps_unreadable_upload_witness :
  index shelf shelf_web "20240101-120000" [] broken_request
  = (Raised (ValueError ("Could not read image: "
                         +:+ "uploads/20240101-120000-scan.png")),
     [("uploads/20240101-120000-scan.png"%string, None)]).
Proof.
  apply (index_keeps_unreadable_upload shelf shelf_web "20240101-120000" []
           broken_request (mkUpload _ "scan.png" None)).
  - reflexivity.
  - reflexivity.
  - discriminate.
  - vm_compute. reflexivity.
  - vm_compute. reflexivity.
Defined.

Example index_masks_page :
  (index shelf shelf_web "20240101-120000" [] page_request).1
  = ResultPage "/masked/masked/20240101-120000-scan.png"
      {| ssn := 1; names := 0; total := 1 |} "masked/20240101-120000-scan.png".
Proof. vm_compute. reflexivity. Qed.
